(** * hotbits: entropy pipeline (stream filters, bit extractors, packet codec)

    A shallow embedding of the C sources

      - [src/testing/rng-extractor.c]  (von_neumann_extract, interval_compare,
                                        xor_fold, extract_lsbs, main)
      - [src/testing/vomneu.c]         (debias_bits)
      - [src/testing/filter.c]         (apply_dead_time, apply_window)
      - [src/trng/trng.c]              (send_packet, run_receive_mode,
                                        parse_arguments, run_gpio_mode)
      - [src/testing/xor-groups.c]     (main)
      - [src/testing/trng.c]           (main)

    Machine integers are [Z] with the wrap-around written out; C arrays are
    lists read by index, and an access outside the array is a [Fault]. *)

From Stdlib Require Import ZArith List Lia Bool Sorted.
From Stdlib Require String.
From stdpp Require Import base list.
From coqutil Require Import Byte Word.LittleEndianList.
Import ListNotations.
Open Scope Z_scope.

(** ** Machine integers *)

Definition u8 (x : Z) : Z := x mod 2 ^ 8.
Definition u32 (x : Z) : Z := x mod 2 ^ 32.
Definition u64 (x : Z) : Z := x mod 2 ^ 64.
(** [size_t] is 64 bits wide on the LP64 targets of the tools. *)
Definition size_t (x : Z) : Z := x mod 2 ^ 64.

Definition is_u64 (x : Z) : Prop := 0 <= x < 2 ^ 64.
Definition is_u32 (x : Z) : Prop := 0 <= x < 2 ^ 32.

(** [#define MAX_BUFFER 10000000]: the tools never hold more samples. *)
Definition MAX_BUFFER : Z := 10000000.

(** ** Results of C code that may leave the defined behaviour *)

Inductive fault : Type :=
  | OutOfRange   (* an element access outside [0, count) *)
  | ShiftRange   (* a shift count outside [0, width) *)
  | OutOfFuel.   (* the loop did not finish within the model's fuel *)

Inductive result (A : Type) : Type :=
  | Ok (a : A)
  | Fault (f : fault).
Arguments Ok {A} a.
Arguments Fault {A} f.

#[global] Instance result_ret : MRet result := fun _ a => Ok a.
#[global] Instance result_bind : MBind result := fun _ _ k r =>
  match r with
  | Ok a => k a
  | Fault f => Fault f
  end.

(** [arr[i]] for an array of [length arr] elements. *)
Definition read (arr : list Z) (i : Z) : result Z :=
  match arr !! Z.to_nat i with
  | Some v => Ok v
  | None => Fault OutOfRange
  end.

(** ** Bit packing shared by the extractors

    The three bit extractors of rng-extractor.c (and debias_bits) carry the
    same locals [out_idx]/[output], [current_byte], [out_bit_pos] and repeat
    the same statements to append a bit and to flush the last byte. *)

Record packer : Type := Packer {
  output : list Z;        (* output[0 .. out_idx) *)
  current_byte : Z;       (* uint8_t *)
  out_bit_pos : Z         (* uint8_t (int bit_count in extract_lsbs) *)
}.

Definition packer_init : packer := Packer [] 0 0.

(** [current_byte = (current_byte << 1) | v; out_bit_pos++;
     if (out_bit_pos == 8) { output[out_idx++] = current_byte;
                             current_byte = 0; out_bit_pos = 0; }] *)
Definition push (st : packer) (v : Z) : packer :=
  let cb := u8 (Z.lor (Z.shiftl (current_byte st) 1) v) in
  let pos := out_bit_pos st + 1 in
  if pos =? 8 then Packer (output st ++ [cb]) 0 0
  else Packer (output st) cb pos.

(** [if (out_bit_pos > 0) { current_byte <<= (8 - out_bit_pos);
                            output[out_idx++] = current_byte; }] *)
Definition flush (st : packer) : list Z :=
  if out_bit_pos st >? 0
  then output st ++ [u8 (Z.shiftl (current_byte st) (8 - out_bit_pos st))]
  else output st.

(** ** rng-extractor.c *)

Module Extractor.

(** [for (size_t i = 0; i < input_len - 1; i += 2)
       if (input[i] != input[i + 1]) push input[i]] *)
Fixpoint von_neumann_loop (fuel : nat) (input : list Z) (input_len i : Z)
    (st : packer) : result packer :=
  match fuel with
  | O => Fault OutOfFuel
  | S fuel' =>
      if i <? size_t (input_len - 1) then
        a ← read input i;
        b ← read input (size_t (i + 1));
        let st' := if negb (a =? b) then push st a else st in
        von_neumann_loop fuel' input input_len (size_t (i + 2)) st'
      else Ok st
  end.

Definition von_neumann_extract (input : list Z) : result (list Z) :=
  let input_len := Z.of_nat (length input) in
  st ← von_neumann_loop (S (length input)) input input_len 0 packer_init;
  Ok (flush st).

(** [for (size_t i = 0; i < count - 1; i += 2)
       push (intervals[i] > intervals[i + 1])] *)
Fixpoint interval_compare_loop (fuel : nat) (intervals : list Z) (count i : Z)
    (st : packer) : result packer :=
  match fuel with
  | O => Fault OutOfFuel
  | S fuel' =>
      if i <? size_t (count - 1) then
        a ← read intervals i;
        b ← read intervals (size_t (i + 1));
        let st' := push st (if a >? b then 1 else 0) in
        interval_compare_loop fuel' intervals count (size_t (i + 2)) st'
      else Ok st
  end.

Definition interval_compare (intervals : list Z) : result (list Z) :=
  let count := Z.of_nat (length intervals) in
  st ← interval_compare_loop (S (length intervals)) intervals count 0 packer_init;
  Ok (flush st).

(** [for (size_t i = 0; i < count - 1; i++)
       output[out_idx++] = (timestamps[i] ^ timestamps[i + 1]) & 0xFF] *)
Fixpoint xor_fold_loop (fuel : nat) (timestamps : list Z) (count i : Z)
    (out : list Z) : result (list Z) :=
  match fuel with
  | O => Fault OutOfFuel
  | S fuel' =>
      if i <? size_t (count - 1) then
        a ← read timestamps i;
        b ← read timestamps (size_t (i + 1));
        let xor_result := Z.lxor a b in
        xor_fold_loop fuel' timestamps count (size_t (i + 1))
                      (out ++ [u8 (Z.land xor_result 255)])
      else Ok out
  end.

Definition xor_fold (timestamps : list Z) : result (list Z) :=
  let count := Z.of_nat (length timestamps) in
  xor_fold_loop (S (length timestamps)) timestamps count 0 [].

(** [values[i] >> bit_pos] with [int bit_pos]: defined only for a shift
    count in [0, 64). *)
Definition shr64 (v bit_pos : Z) : result Z :=
  if (0 <=? bit_pos) && (bit_pos <? 64) then Ok (Z.shiftr v bit_pos)
  else Fault ShiftRange.

(** [for (size_t i = 0; i < count; i++)
       push ((values[i] >> bit_pos) & 1)] *)
Fixpoint extract_lsbs_loop (fuel : nat) (values : list Z) (count : Z)
    (bit_pos : Z) (i : Z) (st : packer) : result packer :=
  match fuel with
  | O => Fault OutOfFuel
  | S fuel' =>
      if i <? count then
        v ← read values i;
        s ← shr64 v bit_pos;
        extract_lsbs_loop fuel' values count bit_pos (size_t (i + 1))
                          (push st (Z.land s 1))
      else Ok st
  end.

Definition extract_lsbs (values : list Z) (bit_pos : Z) : result (list Z) :=
  let count := Z.of_nat (length values) in
  st ← extract_lsbs_loop (S (length values)) values count bit_pos 0 packer_init;
  Ok (flush st).

(** [main], from the point where the [count] values have been read:
    the exit status and the bytes written to standard output. *)
Inductive run : Type :=
  | Exit (status : Z) (written : list Z)
  | Undefined (f : fault).

Definition finish (r : result (list Z)) : run :=
  match r with
  | Ok bytes => Exit 0 bytes
  | Fault f => Undefined f
  end.

Definition main (method bit_pos : Z) (values : list Z) : run :=
  let count := Z.of_nat (length values) in
  if count =? 0 then Exit 1 []                  (* "No input values read" *)
  else if method =? 0 then finish (interval_compare values)
  else if method =? 1 then
    let bits := map (fun v => Z.land v 1) values in
    finish (von_neumann_extract bits)
  else if method =? 2 then finish (xor_fold values)
  else if method =? 3 then finish (extract_lsbs values bit_pos)
  else Exit 1 [].                               (* "Invalid method selected" *)

End Extractor.

(** ** vomneu.c *)

Module Vomneu.

(** As [Extractor.von_neumann_loop]; the function then stores [out_idx]
    without flushing: "Only update output_len with complete bytes". *)
Fixpoint debias_loop (fuel : nat) (input : list Z) (input_len i : Z)
    (st : packer) : result packer :=
  match fuel with
  | O => Fault OutOfFuel
  | S fuel' =>
      if i <? size_t (input_len - 1) then
        a ← read input i;
        b ← read input (size_t (i + 1));
        let st' := if negb (a =? b) then
                     let debiased_bit := a in push st debiased_bit
                   else st in
        debias_loop fuel' input input_len (size_t (i + 2)) st'
      else Ok st
  end.

Definition debias_bits (input : list Z) : result (list Z) :=
  let input_len := Z.of_nat (length input) in
  st ← debias_loop (S (length input)) input input_len 0 packer_init;
  Ok (output st).

End Vomneu.

(** ** filter.c *)

Module Filter.

(** [for (size_t i = 1; i < count; i++)
       if (timestamps[i] - filtered[j-1] > dead_time)
         filtered[j++] = timestamps[i];]
    [rest] is [timestamps[i .. count)], [filtered] is [filtered[0 .. j)];
    the subtraction is unsigned 64-bit. *)
Fixpoint dead_time_loop (rest : list Z) (dead_time : Z) (filtered : list Z)
    : list Z :=
  match rest with
  | [] => filtered
  | t :: rest' =>
      if u64 (t - List.last filtered 0) >? dead_time
      then dead_time_loop rest' dead_time (filtered ++ [t])
      else dead_time_loop rest' dead_time filtered
  end.

(** [count == 0] gives [*new_count = 0]; otherwise [filtered[0]] is
    [timestamps[0]] and the loop runs over the rest. (The [malloc] is taken
    to succeed.) *)
Definition apply_dead_time (timestamps : list Z) (dead_time : Z) : list Z :=
  match timestamps with
  | [] => []
  | t0 :: rest => dead_time_loop rest dead_time [t0]
  end.

(** [timestamps[i]] at an index the loop keeps inside [0, count). *)
Definition at_index (timestamps : list Z) (i : Z) : Z :=
  nth (Z.to_nat i) timestamps 0.

(** [x / window_size * window_size] on uint64_t. *)
Definition window_floor (x window_size : Z) : Z :=
  u64 (u64 (x / window_size) * window_size).

Record wstate : Type := WState {
  windowed : list Z;       (* windowed[0 .. j) *)
  window_start : Z;        (* size_t *)
  current_window : Z       (* uint64_t *)
}.

(** [uint64_t sum = 0;
     for (size_t k = window_start; k < i; k++) sum += timestamps[k];] *)
Definition window_sum (timestamps : list Z) (window_start i : Z) : Z :=
  fold_left (fun sum k => u64 (sum + at_index timestamps k))
            (seqZ window_start (i - window_start)) 0.

(** The [switch (mode)] of the loop body: one value for modes 0, 1 and 2,
    nothing for any other [int]. *)
Definition representative (timestamps : list Z) (mode window_start i : Z)
    : list Z :=
  if mode =? 0 then [at_index timestamps window_start]
  else if mode =? 1 then [at_index timestamps (i - 1)]
  else if mode =? 2 then
    [window_sum timestamps window_start i / size_t (i - window_start)]
  else [].

(** One iteration of [for (size_t i = 1; i <= count; i++)]. *)
Definition window_step (timestamps : list Z) (count window_size mode : Z)
    (st : wstate) (i : Z) : wstate :=
  let next_window :=
    if i <? count then window_floor (at_index timestamps i) window_size
    else u64 (current_window st + window_size) in
  if next_window >? current_window st then
    WState (windowed st ++ representative timestamps mode (window_start st) i)
           i next_window
  else st.

Definition apply_window (timestamps : list Z) (window_size mode : Z) : list Z :=
  let count := Z.of_nat (length timestamps) in
  if (count =? 0) || (window_size =? 0) then []
  else
    let st0 := WState [] 0 (window_floor (at_index timestamps 0) window_size) in
    windowed (fold_left (window_step timestamps count window_size mode)
                        (seqZ 1 count) st0).

End Filter.

(** ** trng.c: the packet on the wire *)

Module Trng.

Record TRNGPacket : Type := Packet {
  timestamp_ns : Z;   (* uint64_t *)
  delta_ns : Z;       (* uint64_t *)
  sequence : Z        (* uint32_t *)
}.

Definition valid_packet (p : TRNGPacket) : Prop :=
  is_u64 (timestamp_ns p) /\ is_u64 (delta_ns p) /\ is_u32 (sequence p).

(** What the C implementation fixes and the source leaves open: the byte
    order of the host and the alignment of [uint64_t] inside a struct (8 on
    x86-64, AArch64 and 32-bit ARM EABI; 4 on i386). *)
Record ABI : Type := MkABI {
  big_endian_host : bool;
  uint64_align : Z
}.

Definition abi_ok (abi : ABI) : Prop :=
  uint64_align abi = 4 \/ uint64_align abi = 8.

Definition x86_64 : ABI := MkABI false 8.
Definition aarch64 : ABI := MkABI false 8.
Definition i386 : ABI := MkABI false 4.

Definition align_up (n a : Z) : Z := (n + a - 1) / a * a.

(** Layout of [struct { uint64_t; uint64_t; uint32_t; }]: each member at the
    next multiple of its alignment, the size rounded up to the alignment of
    the struct. *)
Definition offsetof_timestamp_ns (abi : ABI) : Z := 0.
Definition offsetof_delta_ns (abi : ABI) : Z :=
  align_up (offsetof_timestamp_ns abi + 8) (uint64_align abi).
Definition offsetof_sequence (abi : ABI) : Z :=
  align_up (offsetof_delta_ns abi + 8) 4.
Definition sizeof_TRNGPacket (abi : ABI) : Z :=
  align_up (offsetof_sequence abi + 4) (Z.max (uint64_align abi) 4).

(** The object representation of an [n]-byte unsigned integer on the host. *)
Definition store (abi : ABI) (n : nat) (x : Z) : list byte :=
  if big_endian_host abi then rev (le_split n x) else le_split n x.
Definition load (abi : ABI) (bs : list byte) : Z :=
  if big_endian_host abi then le_combine (rev bs) else le_combine bs.

(** <endian.h>, <arpa/inet.h>: the identity on a big-endian host, a byte
    swap on a little-endian one. *)
Definition bswap (n : nat) (x : Z) : Z := le_combine (rev (le_split n x)).
Definition htobe64 (abi : ABI) (x : Z) : Z :=
  if big_endian_host abi then x else bswap 8 x.
Definition be64toh (abi : ABI) (x : Z) : Z :=
  if big_endian_host abi then x else bswap 8 x.
Definition htonl (abi : ABI) (x : Z) : Z :=
  if big_endian_host abi then x else bswap 4 x.
Definition ntohl (abi : ABI) (x : Z) : Z :=
  if big_endian_host abi then x else bswap 4 x.

(** A local struct object before any member is assigned: [sizeof] bytes of
    indeterminate content [junk]. *)
Definition uninitialised (abi : ABI) (junk : nat -> byte) : list byte :=
  map junk (seq 0 (Z.to_nat (sizeof_TRNGPacket abi))).

(** Assigning a member overwrites the bytes at its offset. *)
Definition write_at (off : Z) (bs mem : list byte) : list byte :=
  take (Z.to_nat off) mem ++ bs ++ drop (Z.to_nat off + length bs) mem.
Definition read_at (off : Z) (n : nat) (mem : list byte) : list byte :=
  take n (drop (Z.to_nat off) mem).

(** [TRNGPacket net_packet;
     net_packet.timestamp_ns = htobe64(packet->timestamp_ns);
     net_packet.delta_ns = htobe64(packet->delta_ns);
     net_packet.sequence = htonl(packet->sequence);] *)
Definition net_packet (abi : ABI) (junk : nat -> byte) (packet : TRNGPacket)
    : list byte :=
  let m0 := uninitialised abi junk in
  let m1 := write_at (offsetof_timestamp_ns abi)
                     (store abi 8 (htobe64 abi (timestamp_ns packet))) m0 in
  let m2 := write_at (offsetof_delta_ns abi)
                     (store abi 8 (htobe64 abi (delta_ns packet))) m1 in
  write_at (offsetof_sequence abi)
           (store abi 4 (htonl abi (sequence packet))) m2.

(** [send_packet]: [-1] and nothing sent when [inet_pton] rejects the host;
    otherwise the [sizeof(net_packet)] bytes of the object go to [sendto],
    whose failure also gives [-1]. *)
Definition send_packet (abi : ABI) (host_ok sendto_ok : bool)
    (junk : nat -> byte) (packet : TRNGPacket) : Z * option (list byte) :=
  if negb host_ok then (-1, None)
  else
    let datagram :=
      take (Z.to_nat (sizeof_TRNGPacket abi)) (net_packet abi junk packet) in
    (if sendto_ok then 0 else -1, Some datagram).

(** What [recvfrom] can deliver to one iteration of the receive loop. *)
Inductive recv_event : Type :=
  | RecvError (errno : Z)
  | RecvDatagram (d : list byte).

Definition EINTR : Z := 4.

(** [recvfrom(sock, &packet, sizeof(packet), ...)] on a datagram socket
    copies at most [sizeof(packet)] bytes into the object and returns the
    number copied. *)
Definition recvfrom_count (abi : ABI) (d : list byte) : Z :=
  Z.min (Z.of_nat (length d)) (sizeof_TRNGPacket abi).
Definition recvfrom_copy (abi : ABI) (d mem : list byte) : list byte :=
  write_at 0 (take (Z.to_nat (sizeof_TRNGPacket abi)) d) mem.

(** [packet.timestamp_ns = be64toh(packet.timestamp_ns); ...] *)
Definition decode (abi : ABI) (mem : list byte) : TRNGPacket :=
  Packet (be64toh abi (load abi (read_at (offsetof_timestamp_ns abi) 8 mem)))
         (be64toh abi (load abi (read_at (offsetof_delta_ns abi) 8 mem)))
         (ntohl abi (load abi (read_at (offsetof_sequence abi) 4 mem))).

Inductive outcome : Type :=
  | Retry                          (* EINTR: continue *)
  | Stop                           (* recvfrom failed: break *)
  | Discarded (received : Z)       (* "Received invalid packet size" *)
  | Accepted (p : TRNGPacket).     (* decoded; delta_ns printed *)

(** The body of [while (running)] in [run_receive_mode]. *)
Definition receive_iteration (abi : ABI) (mem : list byte) (ev : recv_event)
    : outcome :=
  match ev with
  | RecvError errno => if errno =? EINTR then Retry else Stop
  | RecvDatagram d =>
      let received := recvfrom_count abi d in
      if negb (received =? sizeof_TRNGPacket abi) then Discarded received
      else Accepted (decode abi (recvfrom_copy abi d mem))
  end.

(** [printf("%ld\n", packet.delta_ns)]: the value read as a [long]. *)
Definition printed_delta (p : TRNGPacket) : Z :=
  if delta_ns p <? 2 ^ 63 then delta_ns p else delta_ns p - 2 ^ 64.

(** The loop over the events that arrive while [running] is set: the lines
    written to standard output. The [packet] object is reused by every
    iteration; an accepted datagram overwrites all the bytes that are
    decoded, so its earlier content is not threaded through. *)
Fixpoint run_receive_mode (abi : ABI) (mem : list byte)
    (events : list recv_event) : list Z :=
  match events with
  | [] => []
  | ev :: events' =>
      match receive_iteration abi mem ev with
      | Retry | Discarded _ => run_receive_mode abi mem events'
      | Stop => []
      | Accepted p => printed_delta p :: run_receive_mode abi mem events'
      end
  end.

End Trng.

(** ** xor-groups.c *)

Module XorGroups.

(** [uint64_t result = buffer[0];
     for (int i = 1; i < n; i++) result ^= buffer[i];]
    over the [n >= 1] filled entries of the buffer. *)
Definition xor_buffer (buffer : list Z) : Z :=
  match buffer with
  | [] => 0
  | b0 :: rest => fold_left Z.lxor rest b0
  end.

(** The [while (fgets(...))] loop and the remainder after it. [buffer] is
    [buffer[0 .. count)]; the array has [group_size] entries, so storing at
    [buffer[count]] with [count >= group_size] is out of range. *)
Fixpoint read_loop (group_size : Z) (buffer : list Z) (lines : list Z)
    : result (list Z) :=
  match lines with
  | [] =>
      if Z.of_nat (length buffer) >? 0 then Ok [xor_buffer buffer] else Ok []
  | v :: rest =>
      if group_size <=? Z.of_nat (length buffer) then Fault OutOfRange
      else
        let buffer' := buffer ++ [v] in
        if Z.of_nat (length buffer') =? group_size then
          printed ← read_loop group_size [] rest;
          Ok (xor_buffer buffer' :: printed)
        else read_loop group_size buffer' rest
  end.

(** [main] with [group_size = atoi(argv[1])] and the values of the input
    lines: the exit status and the numbers printed. *)
Definition main (group_size : Z) (lines : list Z) : Extractor.run :=
  if group_size <=? 0 then Extractor.Exit 1 []   (* "Group size must be positive" *)
  else Extractor.finish (read_loop group_size [] lines).

End XorGroups.

(** ** Edge events (libgpiod), as trng/trng.c and testing/trng.c read them *)

Module Gpio.

Record timespec : Type := Timespec {
  tv_sec : Z;     (* time_t *)
  tv_nsec : Z     (* long *)
}.

(** What [gpiod_line_event_wait] returns, with the event then read. *)
Inductive wait_result : Type :=
  | Edge (ts : timespec)      (* rv == 1 *)
  | WaitTimeout               (* rv == 0 *)
  | WaitError (errno : Z).    (* rv < 0 *)

(** [(event.ts.tv_sec - last_time.tv_sec) * 1000000000ULL
     + (event.ts.tv_nsec - last_time.tv_nsec)]: the signed differences are
    converted to unsigned 64-bit for the multiplication and the addition. *)
Definition delta_ns (last_time ev : timespec) : Z :=
  u64 (u64 (u64 (tv_sec ev - tv_sec last_time) * 1000000000)
       + u64 (tv_nsec ev - tv_nsec last_time)).

(** [event.ts.tv_sec * 1000000000ULL + event.ts.tv_nsec]. *)
Definition timestamp_ns (ev : timespec) : Z :=
  u64 (u64 (u64 (tv_sec ev) * 1000000000) + u64 (tv_nsec ev)).

(** [printf("%ld\n", delta_ns)]: the 64 bits read as a [long]. *)
Definition as_long (x : Z) : Z := if x <? 2 ^ 63 then x else x - 2 ^ 64.

End Gpio.

(** ** testing/trng.c *)

Module TestTrng.

Import Gpio.

Record state : Type := State {
  last_time : timespec;
  min_delta : Z;
  max_delta : Z;
  printed : list Z      (* the lines written so far *)
}.

(** One iteration of [while (1)]: only [rv == 1] does anything. *)
Definition step (st : state) (ev : wait_result) : state :=
  match ev with
  | Edge ts =>
      if negb (tv_sec (last_time st) =? 0) then
        let d := delta_ns (last_time st) ts in
        State ts
              (if d <? min_delta st then d else min_delta st)
              (if d >? max_delta st then d else max_delta st)
              (printed st ++ [as_long d])
      else State ts (min_delta st) (max_delta st) (printed st)
  | WaitTimeout | WaitError _ => st
  end.

(** The loop never ends; [main] is its state after the events so far. *)
Definition main (events : list wait_result) : state :=
  fold_left step events (State (Timespec 0 0) (2 ^ 64 - 1) 0 []).

End TestTrng.

(** ** trng/trng.c: arguments and the producer loop *)

Module TrngRun.

Import Gpio.
Import String.StringSyntax.
Local Open Scope string_scope.

Inductive OperationMode : Type := MODE_LOCAL | MODE_BROADCAST | MODE_RECEIVE.

Record Config : Type := MkConfig {
  mode : OperationMode;
  host : option String.string;     (* NULL or the argument *)
  port : Z;
  use_ipv6 : bool;
  gpio_line : Z;
  gpio_chip : String.string;
  verbose : bool
}.

(** The static initialiser of [config]. *)
Definition default_config : Config :=
  MkConfig MODE_LOCAL None 8888 false 5 "gpiochip0" false.

(** What [getopt_long] returns, with [optarg] (through [atoi] where the
    code applies it). ['?'] is also what it returns for an option it does
    not know. *)
Inductive getopt_result : Type :=
  | Opt_m (optarg : String.string)
  | Opt_h (optarg : String.string)
  | Opt_p (atoi_optarg : Z)
  | Opt_6
  | Opt_g (atoi_optarg : Z)
  | Opt_c (optarg : String.string)
  | Opt_v
  | Opt_question
  | Opt_other.

Inductive parse_result : Type :=
  | Returned (ret : Z) (config : Config)
  | Exited (status : Z).               (* print_usage; exit(0) *)

Definition is_broadcast (m : OperationMode) : bool :=
  match m with MODE_BROADCAST => true | _ => false end.
Definition is_receive (m : OperationMode) : bool :=
  match m with MODE_RECEIVE => true | _ => false end.
Definition is_null (h : option String.string) : bool :=
  match h with None => true | Some _ => false end.

(** [parse_arguments]: the [while ((opt = getopt_long(...)) != -1)] loop over
    the options, then the two checks after it. *)
Fixpoint parse_arguments (config : Config) (opts : list getopt_result)
    : parse_result :=
  match opts with
  | [] =>
      if is_broadcast (mode config) && is_null (host config)
      then Returned (-1) config    (* "Broadcast mode requires -h/--host" *)
      else if is_receive (mode config) && is_null (host config)
      then Returned 0
             (MkConfig (mode config)
                       (Some (if use_ipv6 config then "::" else "0.0.0.0"))
                       (port config) (use_ipv6 config) (gpio_line config)
                       (gpio_chip config) (verbose config))
      else Returned 0 config
  | opt :: rest =>
      let '(MkConfig m h p v6 gl gc vb) := config in
      match opt with
      | Opt_m optarg =>
          if String.eqb optarg "local"
          then parse_arguments (MkConfig MODE_LOCAL h p v6 gl gc vb) rest
          else if String.eqb optarg "broadcast"
          then parse_arguments (MkConfig MODE_BROADCAST h p v6 gl gc vb) rest
          else if String.eqb optarg "receive"
          then parse_arguments (MkConfig MODE_RECEIVE h p v6 gl gc vb) rest
          else Returned (-1) config                    (* "Invalid mode" *)
      | Opt_h optarg =>
          parse_arguments (MkConfig m (Some optarg) p v6 gl gc vb) rest
      | Opt_p n =>
          if (n <=? 0) || (n >? 65535)
          then Returned (-1) (MkConfig m h n v6 gl gc vb)  (* "Invalid port" *)
          else parse_arguments (MkConfig m h n v6 gl gc vb) rest
      | Opt_6 => parse_arguments (MkConfig m h p true gl gc vb) rest
      | Opt_g n => parse_arguments (MkConfig m h p v6 n gc vb) rest
      | Opt_c optarg => parse_arguments (MkConfig m h p v6 gl optarg vb) rest
      | Opt_v => parse_arguments (MkConfig m h p v6 gl gc true) rest
      | Opt_question => Exited 0
      | Opt_other => Returned (-1) config
      end
  end.

(** What one pass of the producer loop writes: the line on standard output
    and, when broadcasting, the packet handed to [send_packet]. *)
Definition emission : Type := (Z * option Trng.TRNGPacket)%type.

(** The [while (running)] loop of [run_gpio_mode] over the results of the
    waits that happen while [running] is set. [sequence] is a [uint32_t];
    [sequence++] takes place whether or not the send succeeds. *)
Fixpoint gpio_loop (broadcast : bool) (last_time : timespec) (sequence : Z)
    (events : list wait_result) : list emission :=
  match events with
  | [] => []
  | Edge ts :: rest =>
      if negb (tv_sec last_time =? 0) then
        let delta := delta_ns last_time ts in
        let timestamp := timestamp_ns ts in
        if broadcast then
          (as_long delta, Some (Trng.Packet timestamp delta sequence))
          :: gpio_loop broadcast ts (u32 (sequence + 1)) rest
        else (as_long delta, None) :: gpio_loop broadcast ts sequence rest
      else gpio_loop broadcast ts sequence rest
  | WaitTimeout :: rest => gpio_loop broadcast last_time sequence rest
  | WaitError errno :: rest =>
      if negb (errno =? Trng.EINTR) then []              (* break *)
      else gpio_loop broadcast last_time sequence rest
  end.

(** [run_gpio_mode(broadcast_sock)] once the line is requested:
    [last_time = {0, 0}], [sequence = 0]; [broadcast] is
    [broadcast_sock >= 0]. *)
Definition run_gpio_mode (broadcast : bool) (events : list wait_result)
    : list emission :=
  gpio_loop broadcast (Timespec 0 0) 0 events.

Definition stdout_lines (out : list emission) : list Z := map fst out.
Definition packets_sent (out : list emission) : list Trng.TRNGPacket :=
  omap snd out.

End TrngRun.

(** ** filter.c: the pipeline of [main] *)

Module FilterMain.

Record transform_options : Type := Options {
  dead_time_ns : Z;      (* uint64_t *)
  window_size_ns : Z;    (* uint64_t *)
  window_mode : Z;       (* int *)
  output_mode : Z        (* int *)
}.

(** What [getopt] returns in [parse_args], with [optarg] through [strtoull]
    or [atoi]. *)
Inductive getopt_result : Type :=
  | Opt_d (v : Z) | Opt_w (v : Z) | Opt_m (v : Z) | Opt_o (v : Z)
  | Opt_other.

(** [parse_args]: the defaults, then one assignment per option; any other
    option prints the usage and calls [exit(1)] ([None]). *)
Fixpoint parse_loop (opts : transform_options) (args : list getopt_result)
    : option transform_options :=
  match args with
  | [] => Some opts
  | arg :: rest =>
      let '(Options d w m o) := opts in
      match arg with
      | Opt_d v => parse_loop (Options v w m o) rest
      | Opt_w v => parse_loop (Options d v m o) rest
      | Opt_m v => parse_loop (Options d w v o) rest
      | Opt_o v => parse_loop (Options d w m v) rest
      | Opt_other => None
      end
  end.

Definition parse_args (args : list getopt_result) : option transform_options :=
  parse_loop (Options 0 0 0 0) args.

(** [for (size_t i = 1; i < count; i++) printf("%lu\n", result[i] - result[i-1]);] *)
Fixpoint intervals (result : list Z) : list Z :=
  match result with
  | a :: (b :: _) as tl => u64 (b - a) :: intervals tl
  | _ => []
  end.

(** [main] after [parse_args], on the values of the input lines: at most
    [MAX_BUFFER] lines are read, the dead-time filter runs if its option is
    positive, then the window reduction if its option is positive, and the
    result is printed as timestamps or as intervals. *)
Definition main (opts : transform_options) (lines : list Z) : list Z :=
  let timestamps := take (Z.to_nat MAX_BUFFER) lines in
  let result :=
    if dead_time_ns opts >? 0
    then Filter.apply_dead_time timestamps (dead_time_ns opts)
    else timestamps in
  let result :=
    if window_size_ns opts >? 0
    then Filter.apply_window result (window_size_ns opts) (window_mode opts)
    else result in
  if output_mode opts =? 0 then result else intervals result.

End FilterMain.

(** ** vomneu.c: the collection loop of [main] *)

Module VomneuMain.

Import Gpio.

Definition SAMPLE_SIZE : Z := 1000.

(** [while (count < SAMPLE_SIZE)]: each edge after the first stores
    [raw_bits[count] = delta_ns % 2]. [raw_bits] is [raw_bits[0 .. count)].
    The waits block, so with too few edges the loop has not ended
    ([None]). *)
Fixpoint collect (last_time : timespec) (raw_bits : list Z)
    (events : list wait_result) : option (list Z) :=
  if negb (Z.of_nat (length raw_bits) <? SAMPLE_SIZE) then Some raw_bits
  else
    match events with
    | [] => None
    | Edge ts :: rest =>
        if negb (tv_sec last_time =? 0)
        then collect ts (raw_bits ++ [delta_ns last_time ts mod 2]) rest
        else collect ts raw_bits rest
    | WaitTimeout :: rest | WaitError _ :: rest => collect last_time raw_bits rest
    end.

(** [main]: the samples are collected, then [debias_bits(raw_bits,
    SAMPLE_SIZE, debiased_bits, &debiased_size)] gives the bytes appended to
    random.bin; [debiased_bits] has [SAMPLE_SIZE/4] entries. *)
Definition main (events : list wait_result) : option (result (list Z)) :=
  raw_bits ← collect (Timespec 0 0) [] events;
  Some (Vomneu.debias_bits raw_bits).

End VomneuMain.

(** ** The specification's reading of the extractors

    Definitions that follow the words of the specification (section 3 for
    the packing rule, the table of section 4.2 for the bit rules), to be
    compared with the code above. *)

Module Spec.

(** A BitStream: the bits in the order they are produced. *)
Definition BitStream : Type := list bool.

(** The value of a group of bits, the earliest bit most significant. *)
Definition bits_value (bs : BitStream) : Z :=
  fold_left (fun acc b => 2 * acc + Z.b2z b) bs 0.

(** A group of up to 8 bits as a byte: left-shifted so that the bits occupy
    the high-order positions, the low-order positions zero. *)
Definition byte_of_group (group : BitStream) : Z :=
  Z.shiftl (bits_value group) (8 - Z.of_nat (length group)).

(** The [k]-th byte of the packed stream holds bits [8k .. 8k+7]. *)
Definition group (bits : BitStream) (k : nat) : BitStream :=
  take 8 (drop (8 * k) bits).

(** Bytes materialised MSB-first; a partially filled final byte is emitted. *)
Definition pack (bits : BitStream) : list Z :=
  map (fun k => byte_of_group (group bits k))
      (seq 0 ((length bits + 7) / 8)%nat).

(** IntervalCompare: pairs (a,b), 1 if a > b, else 0; advances by 2. *)
Fixpoint IntervalCompare (intervals : list Z) : BitStream :=
  match intervals with
  | a :: b :: rest => (a >? b) :: IntervalCompare rest
  | _ => []
  end.

(** VonNeumann: pairs (a,b) of bits, emit a if a != b, discard the pair if
    a == b; advances by 2. *)
Fixpoint VonNeumann (bits : list bool) : BitStream :=
  match bits with
  | a :: b :: rest =>
      if bool_decide (a = b) then VonNeumann rest else a :: VonNeumann rest
  | _ => []
  end.

(** LsbExtract(pos): one value at a time, bit [(value >> pos) & 1]. *)
Definition LsbExtract (pos : Z) (values : list Z) : BitStream :=
  map (fun v => Z.odd (Z.shiftr v pos)) values.

End Spec.

(** ** Auxiliary definitions for the proofs *)

(** Appending a sequence of bits to a packer. *)
Definition push_all (st : packer) (bits : Spec.BitStream) : packer :=
  fold_left (fun st b => push st (Z.b2z b)) bits st.

(** The bytes completed by a bit stream, and the bits left over. *)
Definition complete_bytes (bits : Spec.BitStream) : list Z :=
  map (fun k => Spec.bits_value (Spec.group bits k))
      (seq 0 (length bits / 8)%nat).
Definition tail_bits (bits : Spec.BitStream) : Spec.BitStream :=
  drop (8 * (length bits / 8)) bits.

(** The common shape of the pairwise loops, and the same loop by recursion
    on the array. *)
Fixpoint pair_loop (body : packer -> Z -> Z -> packer) (fuel : nat)
    (arr : list Z) (count i : Z) (st : packer) : result packer :=
  match fuel with
  | O => Fault OutOfFuel
  | S fuel' =>
      if i <? size_t (count - 1) then
        a ← read arr i;
        b ← read arr (size_t (i + 1));
        pair_loop body fuel' arr count (size_t (i + 2)) (body st a b)
      else Ok st
  end.

Fixpoint fold_pairs (body : packer -> Z -> Z -> packer) (st : packer)
    (arr : list Z) : packer :=
  match arr with
  | a :: b :: rest => fold_pairs body (body st a b) rest
  | _ => st
  end.

Definition vn_body (st : packer) (a b : Z) : packer :=
  if negb (a =? b) then push st a else st.
Definition ic_body (st : packer) (a b : Z) : packer :=
  push st (if a >? b then 1 else 0).

(** A bit-packing extraction run of rng-extractor.c: the extractor with its
    input. The Von Neumann extractor is given single bits, as [main] does
    ([bits[i] = values[i] & 1]). *)
Inductive bit_run : Type :=
  | RunIntervalCompare (intervals : list Z)
  | RunVonNeumann (bits : list bool)
  | RunLsbExtract (bit_pos : Z) (values : list Z).

(** What the code returns for the run. *)
Definition run_output (r : bit_run) : result (list Z) :=
  match r with
  | RunIntervalCompare intervals => Extractor.interval_compare intervals
  | RunVonNeumann bits => Extractor.von_neumann_extract (map Z.b2z bits)
  | RunLsbExtract bit_pos values => Extractor.extract_lsbs values bit_pos
  end.

(** The bits the specification has the run emit. *)
Definition run_bits (r : bit_run) : Spec.BitStream :=
  match r with
  | RunIntervalCompare intervals => Spec.IntervalCompare intervals
  | RunVonNeumann bits => Spec.VonNeumann bits
  | RunLsbExtract bit_pos values => Spec.LsbExtract bit_pos values
  end.

(** The inputs [main] can hand to the extractor: at least one and at most
    [MAX_BUFFER] samples, and a bit position inside the 64-bit value. *)
Definition run_admissible (r : bit_run) : Prop :=
  match r with
  | RunIntervalCompare intervals =>
      intervals <> [] /\ Z.of_nat (length intervals) <= MAX_BUFFER
  | RunVonNeumann bits =>
      bits <> [] /\ Z.of_nat (length bits) <= MAX_BUFFER
  | RunLsbExtract bit_pos values =>
      0 <= bit_pos < 64 /\ Z.of_nat (length values) <= MAX_BUFFER
  end.

(** The output ends in a partially filled byte for the bit stream [bits]:
    after the completed bytes comes one byte [final] whose high-order
    positions 7, 6, ... hold the left-over bits in order and whose remaining
    low-order positions are zero. *)
Definition ends_in_padded_byte (bits : Spec.BitStream) (out : result (list Z))
    : Prop :=
  exists final,
    out = Ok (complete_bytes bits ++ [final])
    /\ final = Z.shiftl (Spec.bits_value (tail_bits bits))
                        (8 - Z.of_nat (length bits mod 8))
    /\ 0 <= final < 256
    /\ (forall (j : nat) b, tail_bits bits !! j = Some b ->
          Z.testbit final (7 - Z.of_nat j) = b)
    /\ (forall k, 0 <= k < 8 - Z.of_nat (length bits mod 8) ->
          Z.testbit final k = false).

(** The specification's wire format: the big-endian serialisation of the
    three fields in declared order, 8 + 8 + 4 bytes. *)
Definition be_bytes (n : nat) (x : Z) : list byte := rev (le_split n x).
Definition be_value (bs : list byte) : Z := le_combine (rev bs).
Definition wire_encode (p : Trng.TRNGPacket) : list byte :=
  be_bytes 8 (Trng.timestamp_ns p) ++ be_bytes 8 (Trng.delta_ns p)
  ++ be_bytes 4 (Trng.sequence p).

(** The tail padding of the struct object, left as it was found. *)
Definition tail_padding (abi : Trng.ABI) (junk : nat -> byte) : list byte :=
  drop 20 (Trng.uninitialised abi junk).

(** ** The specification's reading of the time windows *)

Module WindowSpec.

(** The window floor of a sample: [sample / windowSize * windowSize]. *)
Definition floor_of (window_size t : Z) : Z := t / window_size * window_size.

(** The windows an input spans, in order: the maximal runs of consecutive
    samples that have the same window floor. [cur] is the window being
    filled and [cur_floor] its floor. *)
Fixpoint windows_from (window_size : Z) (cur : list Z) (cur_floor : Z)
    (rest : list Z) : list (list Z) :=
  match rest with
  | [] => [cur]
  | t :: rest' =>
      if floor_of window_size t =? cur_floor
      then windows_from window_size (cur ++ [t]) cur_floor rest'
      else cur :: windows_from window_size [t] (floor_of window_size t) rest'
  end.

Definition windows (window_size : Z) (samples : list Z) : list (list Z) :=
  match samples with
  | [] => []
  | t :: rest => windows_from window_size [t] (floor_of window_size t) rest
  end.

(** The number of distinct window floors spanned by the input. *)
Definition distinct_floors (window_size : Z) (samples : list Z) : nat :=
  length (remove_dups (map (floor_of window_size) samples)).

(** Mean: the sum of the samples of the window divided by their count,
    integer floor division. *)
Definition mean (w : list Z) : Z :=
  fold_right Z.add 0 w / Z.of_nat (length w).

End WindowSpec.

(** What apply_window stores for a closed window [w]: its first sample
    (mode 0), its last sample (mode 1), or the 64-bit sum of its samples
    divided by their count (mode 2). *)
Definition wrapped_sum (w : list Z) : Z :=
  fold_left (fun sum t => u64 (sum + t)) w 0.
Definition emitted (mode : Z) (w : list Z) : Z :=
  if mode =? 0 then hd 0 w
  else if mode =? 1 then List.last w 0
  else wrapped_sum w / Z.of_nat (length w).

(** Every two neighbours [a], [b] of a list are related by [R]. *)
Fixpoint chain (R : Z -> Z -> Prop) (l : list Z) : Prop :=
  match l with
  | a :: (b :: _) as tl => R a b /\ chain R tl
  | _ => True
  end.

(** The test of [apply_dead_time] between a kept sample [a] and the next
    kept sample [b]: [b - a > dead_time] in unsigned 64-bit arithmetic. *)
Definition spaced (dead_time a b : Z) : Prop := u64 (b - a) > dead_time.

(** The bytes [xor_fold] stores: the low 8 bits of the exclusive or of
    every two neighbours. *)
Fixpoint adjacent_xor (l : list Z) : list Z :=
  match l with
  | a :: (b :: _) as tl => Z.land (Z.lxor a b) 255 :: adjacent_xor tl
  | _ => []
  end.

(** The floor of a window, read off its first sample, and what makes a list
    of samples one window: it is not empty, it is sorted, and all its
    samples have the same floor. *)
Definition window_key (ws : Z) (w : list Z) : Z :=
  WindowSpec.floor_of ws (hd 0 w).
Definition one_window (ws : Z) (w : list Z) : Prop :=
  w <> [] /\ StronglySorted Z.le w
  /\ Forall (fun t => WindowSpec.floor_of ws t = window_key ws w) w.

(** Packets whose deltas are the 64-bit differences of successive
    timestamps, the first one taken from [prev]. *)
Fixpoint consistent_deltas (prev : Z) (ps : list Trng.TRNGPacket) : Prop :=
  match ps with
  | [] => True
  | p :: ps' =>
      Trng.delta_ns p = u64 (Trng.timestamp_ns p - prev)
      /\ consistent_deltas (Trng.timestamp_ns p) ps'
  end.

(** The datagram [send_packet] hands to [sendto] for a packet, the stack
    content under [net_packet] being [junk]. *)
Definition datagram_of (abi : Trng.ABI) (junk : nat -> byte)
    (p : Trng.TRNGPacket) : list byte :=
  default [] (snd (Trng.send_packet abi true true junk p)).

(** The results of [recvfrom] that leave no trace in the output of the
    receive loop: an interrupted call and a datagram that is too short. *)
Definition is_noise (abi : Trng.ABI) (ev : Trng.recv_event) : bool :=
  match ev with
  | Trng.RecvError errno => errno =? Trng.EINTR
  | Trng.RecvDatagram d => Z.of_nat (length d) <? Trng.sizeof_TRNGPacket abi
  end.

(** A wait result that does not end the producer loop. *)
Definition not_fatal (ev : Gpio.wait_result) : Prop :=
  match ev with
  | Gpio.WaitError errno => errno = Trng.EINTR
  | _ => True
  end.


(** The number of bits a packer has taken: 8 per stored byte and those in
    [current_byte]. *)
Definition bits_taken (st : packer) : Z :=
  8 * Z.of_nat (length (output st)) + out_bit_pos st.

(** * Theorems *)

(** ** Bit packing *)

Section Packing.

Import Spec.

Lemma bits_value_snoc bs b :
  bits_value (bs ++ [b]) = 2 * bits_value bs + Z.b2z b.
Proof. unfold bits_value. now rewrite fold_left_app. Qed.

Lemma bits_value_bound bs :
  0 <= bits_value bs < 2 ^ Z.of_nat (length bs).
Proof.
  induction bs as [|b bs IH] using rev_ind.
  - cbn. lia.
  - rewrite bits_value_snoc, length_app, Nat2Z.inj_add, Z.pow_add_r by lia.
    cbn [length]. change (2 ^ Z.of_nat 1) with 2.
    destruct b; cbn [Z.b2z]; lia.
Qed.

Lemma lor_shiftl_bit v b :
  Z.lor (Z.shiftl v 1) (Z.b2z b) = 2 * v + Z.b2z b.
Proof.
  rewrite Z.shiftl_mul_pow2 by lia. change (2 ^ 1) with 2.
  apply Z.bits_inj'. intros n Hn.
  rewrite Z.lor_spec.
  destruct (Z.eq_dec n 0) as [->|Hn0].
  - rewrite (Z.mul_comm v 2), Z.testbit_0_r.
    replace (2 * v) with (2 * v + Z.b2z false) by (cbn; lia).
    rewrite Z.testbit_0_r. destruct b; reflexivity.
  - replace n with (Z.succ (n - 1)) by lia.
    rewrite (Z.mul_comm v 2), Z.testbit_succ_r by lia.
    replace (2 * v) with (2 * v + Z.b2z false) by (cbn; lia).
    rewrite Z.testbit_succ_r by lia.
    destruct b; cbn [Z.b2z].
    + change 1 with (2 * 0 + Z.b2z true) at 2.
      rewrite Z.testbit_succ_r by lia. rewrite Z.bits_0. apply orb_false_r.
    + rewrite Z.bits_0. apply orb_false_r.
Qed.

Lemma push_all_snoc st bs b :
  push_all st (bs ++ [b]) = push (push_all st bs) (Z.b2z b).
Proof. unfold push_all. now rewrite fold_left_app. Qed.

Lemma push_all_app st bs1 bs2 :
  push_all st (bs1 ++ bs2) = push_all (push_all st bs1) bs2.
Proof. unfold push_all. now rewrite fold_left_app. Qed.

(** Fewer than 8 bits pushed into an empty [current_byte] stay there. *)
Lemma push_all_partial out bs :
  (length bs < 8)%nat ->
  push_all (Packer out 0 0) bs
  = Packer out (bits_value bs) (Z.of_nat (length bs)).
Proof.
  induction bs as [|b bs IH] using rev_ind; intros Hlen.
  - reflexivity.
  - rewrite length_app in Hlen. cbn [length] in Hlen.
    rewrite push_all_snoc, IH by lia.
    unfold push. cbn [current_byte out_bit_pos output].
    rewrite lor_shiftl_bit, bits_value_snoc, length_app. cbn [length].
    destruct (Z.eqb_spec (Z.of_nat (length bs) + 1) 8) as [E|_]; [lia|].
    f_equal; [|lia].
    pose proof (bits_value_bound bs) as Hb.
    assert (2 ^ Z.of_nat (length bs) <= 2 ^ 6)
      by (apply Z.pow_le_mono_r; lia).
    unfold u8. apply Z.mod_small.
    change (2 ^ 6) with 64 in *. change (2 ^ 8) with 256.
    destruct b; cbn [Z.b2z]; lia.
Qed.

(** The eighth bit completes the byte, which is stored in [output]. *)
Lemma push_all_full out bs :
  length bs = 8%nat ->
  push_all (Packer out 0 0) bs = Packer (out ++ [bits_value bs]) 0 0.
Proof.
  destruct bs as [|b bs _] using rev_ind; intros Hlen; [discriminate|].
  rewrite length_app in Hlen. cbn [length] in Hlen.
  rewrite push_all_snoc, push_all_partial by lia.
  unfold push. cbn [current_byte out_bit_pos output].
  rewrite lor_shiftl_bit, bits_value_snoc.
  replace (Z.of_nat (length bs) + 1) with 8 by lia. cbn [Z.eqb Pos.eqb].
  do 3 f_equal.
  pose proof (bits_value_bound bs) as Hb.
  replace (Z.of_nat (length bs)) with 7 in Hb by lia.
  unfold u8. apply Z.mod_small.
  change (2 ^ 7) with 128 in *. change (2 ^ 8) with 256.
  destruct b; cbn [Z.b2z]; lia.
Qed.

Lemma div8_add n : ((8 + n) / 8 = S (n / 8))%nat.
Proof.
  replace (8 + n)%nat with (1 * 8 + n)%nat by lia.
  rewrite Nat.div_add_l by lia. lia.
Qed.

Lemma mod8_add n : ((8 + n) mod 8 = n mod 8)%nat.
Proof.
  replace (8 + n)%nat with (n + 1 * 8)%nat by lia.
  now rewrite Nat.Div0.mod_add.
Qed.

Lemma group_app_0 c rest : length c = 8%nat -> group (c ++ rest) 0 = c.
Proof.
  intros Hc. unfold group. rewrite Nat.mul_0_r, drop_0.
  now apply take_app_length'.
Qed.

Lemma group_app_S c rest k :
  length c = 8%nat -> group (c ++ rest) (S k) = group rest k.
Proof.
  intros Hc. unfold group.
  replace (8 * S k)%nat with (length c + 8 * k)%nat by lia.
  now rewrite drop_app_add.
Qed.

Lemma complete_bytes_app c rest :
  length c = 8%nat ->
  complete_bytes (c ++ rest) = bits_value c :: complete_bytes rest.
Proof.
  intros Hc. unfold complete_bytes.
  rewrite length_app, Hc, div8_add. cbn [seq map].
  rewrite group_app_0 by assumption. f_equal.
  rewrite <- seq_shift, map_map.
  apply map_ext. intros k. now rewrite group_app_S.
Qed.

Lemma tail_bits_app c rest :
  length c = 8%nat -> tail_bits (c ++ rest) = tail_bits rest.
Proof.
  intros Hc. unfold tail_bits.
  rewrite length_app, Hc, div8_add.
  replace (8 * S (length rest / 8))%nat
    with (length c + 8 * (length rest / 8))%nat by lia.
  now rewrite drop_app_add.
Qed.

Lemma length_tail_bits bits :
  length (tail_bits bits) = (length bits mod 8)%nat.
Proof.
  unfold tail_bits. rewrite length_drop.
  pose proof (Nat.div_mod_eq (length bits) 8). lia.
Qed.

Lemma length_complete_bytes bits :
  length (complete_bytes bits) = (length bits / 8)%nat.
Proof. unfold complete_bytes. now rewrite length_map, length_seq. Qed.

(** The packer after a whole bit stream: the completed bytes are in
    [output], the left-over bits in [current_byte]. *)
Lemma push_all_state bits : forall out,
  push_all (Packer out 0 0) bits
  = Packer (out ++ complete_bytes bits) (bits_value (tail_bits bits))
           (Z.of_nat (length bits mod 8)).
Proof.
  remember (length bits) as n eqn:Hn.
  revert bits Hn. induction n as [n IH] using lt_wf_ind. intros bits Hn out.
  destruct (Nat.lt_ge_cases n 8) as [Hlt|Hge].
  - rewrite push_all_partial by lia.
    unfold complete_bytes, tail_bits. rewrite <- Hn.
    rewrite Nat.div_small, Nat.mod_small by lia.
    rewrite Nat.mul_0_r, drop_0. cbn [seq map]. now rewrite app_nil_r.
  - rewrite <- (take_drop 8 bits).
    assert (Hc : length (take 8 bits) = 8%nat) by (rewrite length_take; lia).
    rewrite push_all_app, push_all_full by assumption.
    rewrite (IH (length (drop 8 bits))); [|rewrite length_drop; lia|reflexivity].
    rewrite complete_bytes_app, tail_bits_app by assumption.
    rewrite <- app_assoc. cbn [app].
    replace n with (8 + length (drop 8 bits))%nat
      by (rewrite length_drop; lia).
    now rewrite mod8_add.
Qed.

(** The specification's packing, split into the completed bytes and the
    partially filled final byte. *)
Lemma pack_split bits :
  pack bits
  = complete_bytes bits
    ++ (if (length bits mod 8 =? 0)%nat then []
        else [byte_of_group (tail_bits bits)]).
Proof.
  unfold pack.
  pose proof (Nat.div_mod_eq (length bits) 8) as Hdm.
  pose proof (Nat.mod_upper_bound (length bits) 8 ltac:(lia)) as Hr.
  assert (Hcomplete :
    map (fun k => byte_of_group (group bits k)) (seq 0 (length bits / 8))
    = complete_bytes bits).
  { unfold complete_bytes. apply map_ext_in. intros k Hk.
    apply in_seq in Hk. unfold byte_of_group, group.
    rewrite length_take, length_drop.
    replace (8 `min` (length bits - 8 * k))%nat with 8%nat by lia.
    reflexivity. }
  destruct (Nat.eqb_spec (length bits mod 8) 0) as [E|E].
  - replace ((length bits + 7) / 8)%nat with (length bits / 8)%nat.
    + now rewrite app_nil_r.
    + apply Nat.div_unique with (r := 7%nat); lia.
  - replace ((length bits + 7) / 8)%nat with (length bits / 8 + 1)%nat.
    + rewrite seq_app, map_app, Hcomplete. cbn [seq map Nat.add].
      do 3 f_equal. unfold group, tail_bits.
      apply take_ge. rewrite length_drop. lia.
    + apply Nat.div_unique with (r := (length bits mod 8 - 1)%nat); lia.
Qed.

(** Flushing after a whole bit stream gives the specification's packing. *)
Lemma flush_push_all bits :
  flush (push_all packer_init bits) = pack bits.
Proof.
  unfold packer_init. rewrite push_all_state, pack_split. unfold flush.
  cbn [out_bit_pos current_byte output app].
  pose proof (Nat.mod_upper_bound (length bits) 8 ltac:(lia)) as Hr.
  destruct (Nat.eqb_spec (length bits mod 8) 0) as [E|E].
  - rewrite E. cbn. now rewrite app_nil_r.
  - destruct (Z.gtb_spec (Z.of_nat (length bits mod 8)) 0) as [_|F]; [|lia].
    do 2 f_equal. unfold byte_of_group. rewrite length_tail_bits.
    unfold u8. apply Z.mod_small.
    pose proof (bits_value_bound (tail_bits bits)) as Hb.
    rewrite length_tail_bits in Hb.
    rewrite Z.shiftl_mul_pow2 by lia.
    replace (2 ^ 8) with (2 ^ Z.of_nat (length bits mod 8)
                          * 2 ^ (8 - Z.of_nat (length bits mod 8)))
      by (rewrite <- Z.pow_add_r by lia; f_equal; lia).
    assert (0 < 2 ^ (8 - Z.of_nat (length bits mod 8)))
      by (apply Z.pow_pos_nonneg; lia).
    nia.
Qed.

End Packing.

(** ** The loops of the extractors *)

Section Loops.

Import Spec.

Lemma list_pair_ind {A} (P : list A -> Prop) :
  P [] -> (forall a, P [a]) -> (forall a b r, P r -> P (a :: b :: r)) ->
  forall l, P l.
Proof.
  intros H0 H1 H2 l.
  enough (P l /\ forall a, P (a :: l)) by tauto.
  induction l as [|x l [IHl IHxl]]; split; auto.
Qed.

Lemma size_t_small x : 0 <= x <= MAX_BUFFER + 2 -> size_t x = x.
Proof.
  intros H. unfold size_t. apply Z.mod_small.
  unfold MAX_BUFFER in H. change (2 ^ 64) with 18446744073709551616. lia.
Qed.

Lemma read_lookup (arr : list Z) (k : nat) v :
  arr !! k = Some v -> read arr (Z.of_nat k) = Ok v.
Proof. intros H. unfold read. now rewrite Nat2Z.id, H. Qed.

(** The three pairwise loops are instances of [pair_loop]. *)
Ltac same_pair_loop fuel :=
  let IH := fresh "IH" in
  induction fuel as [|fuel IH]; intros; cbn;
  [ reflexivity
  | repeat match goal with
           | |- context [if ?c then _ else Ok _] =>
               destruct c; [|reflexivity]
           | |- context [read ?arr ?i] =>
               destruct (read arr i); cbn; [|reflexivity]
           end;
    apply IH ].

Lemma von_neumann_loop_eq fuel : forall input n i st,
  Extractor.von_neumann_loop fuel input n i st
  = pair_loop vn_body fuel input n i st.
Proof. same_pair_loop fuel. Qed.

Lemma interval_compare_loop_eq fuel : forall intervals n i st,
  Extractor.interval_compare_loop fuel intervals n i st
  = pair_loop ic_body fuel intervals n i st.
Proof. same_pair_loop fuel. Qed.

Lemma debias_loop_eq fuel : forall input n i st,
  Vomneu.debias_loop fuel input n i st = pair_loop vn_body fuel input n i st.
Proof. same_pair_loop fuel. Qed.

(** On a non-empty array the pairwise loop ends without a fault, having run
    its body on the disjoint pairs from index [2k] on. *)
Lemma pair_loop_spec body (arr : list Z) :
  arr <> [] -> Z.of_nat (length arr) <= MAX_BUFFER ->
  forall fuel k st,
    (2 * k <= length arr)%nat -> (length arr - 2 * k < 2 * fuel)%nat ->
    pair_loop body fuel arr (Z.of_nat (length arr)) (Z.of_nat (2 * k)) st
    = Ok (fold_pairs body st (drop (2 * k) arr)).
Proof.
  intros Hne Hmax.
  assert (Hpos : (0 < length arr)%nat) by (destruct arr; [congruence|cbn; lia]).
  induction fuel as [|fuel IH]; intros k st Hk Hfuel; [lia|].
  cbn [pair_loop].
  rewrite (size_t_small (Z.of_nat (length arr) - 1)) by lia.
  destruct (Z.ltb_spec (Z.of_nat (2 * k)) (Z.of_nat (length arr) - 1)) as [Hlt|Hge].
  - destruct (lookup_lt_is_Some_2 arr (2 * k) ltac:(lia)) as [a Ha].
    destruct (lookup_lt_is_Some_2 arr (S (2 * k)) ltac:(lia)) as [b Hb].
    rewrite (read_lookup _ _ _ Ha). cbn [mbind result_bind].
    rewrite (size_t_small (Z.of_nat (2 * k) + 1)) by lia.
    replace (Z.of_nat (2 * k) + 1) with (Z.of_nat (S (2 * k))) by lia.
    rewrite (read_lookup _ _ _ Hb). cbn [mbind result_bind].
    rewrite (size_t_small (Z.of_nat (2 * k) + 2)) by lia.
    replace (Z.of_nat (2 * k) + 2) with (Z.of_nat (2 * S k)) by lia.
    rewrite IH by lia.
    rewrite (drop_S _ _ _ Ha), (drop_S _ _ _ Hb). cbn [fold_pairs].
    do 3 f_equal. lia.
  - assert (Hshort : (length (drop (2 * k) arr) <= 1)%nat)
      by (rewrite length_drop; lia).
    destruct (drop (2 * k) arr) as [|a [|b r]]; cbn in Hshort; [reflexivity..|lia].
Qed.

Lemma pair_loop_total body (arr : list Z) :
  arr <> [] -> Z.of_nat (length arr) <= MAX_BUFFER ->
  pair_loop body (S (length arr)) arr (Z.of_nat (length arr)) 0 packer_init
  = Ok (fold_pairs body packer_init arr).
Proof.
  intros Hne Hmax.
  apply (pair_loop_spec body arr Hne Hmax (S (length arr)) 0%nat); lia.
Qed.

(** The trailing sample of an odd-length array never enters a pair. *)
Lemma fold_pairs_odd body (arr : list Z) : forall st x,
  Nat.Even (length arr) ->
  fold_pairs body st (arr ++ [x]) = fold_pairs body st arr.
Proof.
  induction arr as [| a | a b r IH] using list_pair_ind; intros st x Hev.
  - reflexivity.
  - destruct Hev as [m Hm]. cbn in Hm. lia.
  - cbn [app fold_pairs]. apply IH.
    destruct Hev as [m Hm]. cbn [length] in Hm. exists (m - 1)%nat. lia.
Qed.

Lemma fold_pairs_interval st (intervals : list Z) :
  fold_pairs ic_body st intervals = push_all st (IntervalCompare intervals).
Proof.
  revert st.
  induction intervals as [| a | a b r IH] using list_pair_ind; intros st;
    [reflexivity..|].
  cbn [fold_pairs IntervalCompare]. rewrite IH. reflexivity.
Qed.

Lemma fold_pairs_von_neumann st (bits : list bool) :
  fold_pairs vn_body st (map Z.b2z bits) = push_all st (VonNeumann bits).
Proof.
  revert st.
  induction bits as [| a | a b r IH] using list_pair_ind; intros st;
    [reflexivity..|].
  cbn [map fold_pairs VonNeumann]. rewrite IH. unfold vn_body.
  destruct a, b; reflexivity.
Qed.

Lemma land_1_odd x : Z.land x 1 = Z.b2z (Z.odd x).
Proof.
  change 1 with (Z.ones 1) at 1. rewrite Z.land_ones by lia.
  change (2 ^ 1) with 2. now rewrite <- Z.bit0_mod, Z.bit0_odd.
Qed.

Lemma shr64_ok v bit_pos :
  0 <= bit_pos < 64 -> Extractor.shr64 v bit_pos = Ok (Z.shiftr v bit_pos).
Proof.
  intros H. unfold Extractor.shr64.
  destruct (Z.leb_spec 0 bit_pos); [|lia].
  destruct (Z.ltb_spec bit_pos 64); [reflexivity|lia].
Qed.

Lemma extract_lsbs_loop_spec (values : list Z) bit_pos :
  0 <= bit_pos < 64 -> Z.of_nat (length values) <= MAX_BUFFER ->
  forall fuel k st,
    (k <= length values)%nat -> (length values - k < fuel)%nat ->
    Extractor.extract_lsbs_loop fuel values (Z.of_nat (length values)) bit_pos
                                (Z.of_nat k) st
    = Ok (push_all st (LsbExtract bit_pos (drop k values))).
Proof.
  intros Hpos Hmax.
  induction fuel as [|fuel IH]; intros k st Hk Hfuel; [lia|].
  cbn [Extractor.extract_lsbs_loop].
  destruct (Z.ltb_spec (Z.of_nat k) (Z.of_nat (length values))) as [Hlt|Hge].
  - destruct (lookup_lt_is_Some_2 values k ltac:(lia)) as [v Hv].
    rewrite (read_lookup _ _ _ Hv). cbn [mbind result_bind].
    rewrite shr64_ok by assumption. cbn [mbind result_bind].
    rewrite (size_t_small (Z.of_nat k + 1)) by lia.
    replace (Z.of_nat k + 1) with (Z.of_nat (S k)) by lia.
    rewrite IH by lia.
    rewrite (drop_S _ _ _ Hv). unfold LsbExtract. cbn [map push_all fold_left].
    now rewrite land_1_odd.
  - rewrite drop_ge by lia. reflexivity.
Qed.

(** The extractors of rng-extractor.c against the specification. *)
Lemma interval_compare_pack (intervals : list Z) :
  intervals <> [] -> Z.of_nat (length intervals) <= MAX_BUFFER ->
  Extractor.interval_compare intervals = Ok (pack (IntervalCompare intervals)).
Proof.
  intros Hne Hmax. unfold Extractor.interval_compare. cbv zeta.
  rewrite interval_compare_loop_eq, pair_loop_total by assumption.
  cbn [mbind result_bind].
  now rewrite fold_pairs_interval, flush_push_all.
Qed.

Lemma von_neumann_pack (bits : list bool) :
  bits <> [] -> Z.of_nat (length bits) <= MAX_BUFFER ->
  Extractor.von_neumann_extract (map Z.b2z bits) = Ok (pack (VonNeumann bits)).
Proof.
  intros Hne Hmax. unfold Extractor.von_neumann_extract. cbv zeta.
  rewrite von_neumann_loop_eq, pair_loop_total.
  - cbn [mbind result_bind].
    now rewrite fold_pairs_von_neumann, flush_push_all.
  - destruct bits; [congruence|discriminate].
  - now rewrite length_map.
Qed.

Lemma debias_bits_complete (bits : list bool) :
  bits <> [] -> Z.of_nat (length bits) <= MAX_BUFFER ->
  Vomneu.debias_bits (map Z.b2z bits) = Ok (complete_bytes (VonNeumann bits)).
Proof.
  intros Hne Hmax. unfold Vomneu.debias_bits. cbv zeta.
  rewrite debias_loop_eq, pair_loop_total.
  - cbn [mbind result_bind].
    rewrite fold_pairs_von_neumann. unfold packer_init.
    now rewrite push_all_state.
  - destruct bits; [congruence|discriminate].
  - now rewrite length_map.
Qed.

Lemma extract_lsbs_pack (values : list Z) bit_pos :
  0 <= bit_pos < 64 -> Z.of_nat (length values) <= MAX_BUFFER ->
  Extractor.extract_lsbs values bit_pos = Ok (pack (LsbExtract bit_pos values)).
Proof.
  intros Hpos Hmax. unfold Extractor.extract_lsbs. cbv zeta.
  rewrite (extract_lsbs_loop_spec values bit_pos Hpos Hmax _ 0%nat) by lia.
  cbn [mbind result_bind]. rewrite drop_0.
  now rewrite flush_push_all.
Qed.

End Loops.

(** ** Claims about the extractors *)

Section ExtractorClaims.

Import Spec.

Lemma bits_value_testbit (g : BitStream) : forall (j : nat) b,
  g !! j = Some b ->
  Z.testbit (bits_value g) (Z.of_nat (length g) - 1 - Z.of_nat j) = b.
Proof.
  induction g as [|x g IH] using rev_ind; intros j b Hj; [discriminate|].
  rewrite bits_value_snoc, length_app. cbn [length].
  apply lookup_snoc_Some in Hj as [[Hlt Hj]|[-> ->]].
  - replace (Z.of_nat (length g + 1) - 1 - Z.of_nat j)
      with (Z.succ (Z.of_nat (length g) - 1 - Z.of_nat j)) by lia.
    rewrite Z.testbit_succ_r by lia. now apply IH.
  - replace (Z.of_nat (length g + 1) - 1 - Z.of_nat (length g)) with 0 by lia.
    apply Z.testbit_0_r.
Qed.

Lemma byte_of_group_testbit (g : BitStream) (j : nat) b :
  (length g <= 8)%nat -> g !! j = Some b ->
  Z.testbit (byte_of_group g) (7 - Z.of_nat j) = b.
Proof.
  intros Hlen Hj. unfold byte_of_group.
  assert (j < length g)%nat by (apply lookup_lt_is_Some; eauto).
  rewrite Z.shiftl_spec by lia.
  replace (7 - Z.of_nat j - (8 - Z.of_nat (length g)))
    with (Z.of_nat (length g) - 1 - Z.of_nat j) by lia.
  now apply bits_value_testbit.
Qed.

Lemma byte_of_group_range (g : BitStream) :
  (length g <= 8)%nat -> 0 <= byte_of_group g < 256.
Proof.
  intros Hlen. unfold byte_of_group.
  pose proof (bits_value_bound g) as Hb.
  rewrite Z.shiftl_mul_pow2 by lia.
  assert (0 < 2 ^ (8 - Z.of_nat (length g))) by (apply Z.pow_pos_nonneg; lia).
  assert (2 ^ Z.of_nat (length g) * 2 ^ (8 - Z.of_nat (length g)) = 256).
  { rewrite <- Z.pow_add_r by lia.
    replace (Z.of_nat (length g) + (8 - Z.of_nat (length g))) with 8 by lia.
    reflexivity. }
  nia.
Qed.

(** A packed stream whose bit count is not a multiple of 8 ends in the
    padded final byte. *)
Lemma pack_ends_in_padded_byte (bits : BitStream) :
  (length bits mod 8)%nat <> 0%nat ->
  ends_in_padded_byte bits (Ok (pack bits)).
Proof.
  intros Hr.
  pose proof (Nat.mod_upper_bound (length bits) 8 ltac:(lia)) as Hlt.
  pose proof (length_tail_bits bits) as Hlen.
  exists (byte_of_group (tail_bits bits)).
  rewrite pack_split.
  destruct (Nat.eqb_spec (length bits mod 8) 0) as [E|_]; [contradiction|].
  split; [reflexivity|]. split.
  { unfold byte_of_group. now rewrite Hlen. }
  split; [apply byte_of_group_range; lia|]. split.
  - intros j b Hj. apply byte_of_group_testbit; [lia|assumption].
  - intros k Hk. unfold byte_of_group. rewrite Hlen.
    apply Z.shiftl_spec_low. lia.
Qed.

Lemma run_output_pack (r : bit_run) :
  run_admissible r -> run_output r = Ok (pack (run_bits r)).
Proof.
  destruct r as [intervals|bits|bit_pos values]; intros [H1 H2]; cbn.
  - now apply interval_compare_pack.
  - now apply von_neumann_pack.
  - now apply extract_lsbs_pack.
Qed.

(** The runs as [main] starts them. *)
Lemma main_runs (values : list Z) (bit_pos : Z) :
  values <> [] -> Z.of_nat (length values) <= MAX_BUFFER ->
  Extractor.main 0 bit_pos values
  = Extractor.Exit 0 (pack (IntervalCompare values))
  /\ Extractor.main 1 bit_pos values
     = Extractor.Exit 0 (pack (VonNeumann (map Z.odd values)))
  /\ (0 <= bit_pos < 64 ->
      Extractor.main 3 bit_pos values
      = Extractor.Exit 0 (pack (LsbExtract bit_pos values))).
Proof.
  intros Hne Hmax. unfold Extractor.main. cbv zeta.
  destruct (Z.eqb_spec (Z.of_nat (length values)) 0) as [E|_].
  { destruct values; [congruence|discriminate]. }
  cbn [Z.eqb Pos.eqb]. repeat split.
  - now rewrite interval_compare_pack.
  - replace (map (fun v => Z.land v 1) values)
      with (map Z.b2z (map Z.odd values))
      by (rewrite map_map; apply map_ext; intros v; now rewrite land_1_odd).
    rewrite von_neumann_pack; [reflexivity| |now rewrite length_map].
    destruct values; [congruence|discriminate].
  - intros Hpos. now rewrite extract_lsbs_pack.
Qed.

(** C2 (as amended): for every bit-packing extraction run of rng-extractor.c
    (interval_compare, von_neumann_extract, extract_lsbs) whose number of
    emitted bits is not a multiple of 8, the partially filled final byte is
    emitted after the completed bytes, left-shifted so that the collected
    bits occupy the high-order positions and the low-order bits are zero;
    debias_bits of vomneu.c returns the completed bytes only. *)
Theorem C2_partial_final_byte (r : bit_run)
    (Hadm : run_admissible r)
    (Hpartial : (length (run_bits r) mod 8)%nat <> 0%nat) :
  ends_in_padded_byte (run_bits r) (run_output r)
  /\ (forall bits, r = RunVonNeumann bits ->
        Vomneu.debias_bits (map Z.b2z bits) = Ok (complete_bytes (VonNeumann bits))
        /\ length (complete_bytes (VonNeumann bits))
           = (length (VonNeumann bits) / 8)%nat).
Proof.
  split.
  - rewrite run_output_pack by assumption.
    now apply pack_ends_in_padded_byte.
  - intros bits ->. destruct Hadm as [Hne Hmax]. split.
    + now apply debias_bits_complete.
    + apply length_complete_bytes.
Qed.

Lemma C2_partial_final_byte_witness :
  run_admissible (RunIntervalCompare [10; 5; 3; 8; 7; 7])
  /\ (length (run_bits (RunIntervalCompare [10; 5; 3; 8; 7; 7]%Z)) mod 8)%nat
     <> 0%nat
  /\ ends_in_padded_byte (IntervalCompare [10; 5; 3; 8; 7; 7])
                         (Extractor.interval_compare [10; 5; 3; 8; 7; 7]).
Proof.
  assert (Hadm : run_admissible (RunIntervalCompare [10; 5; 3; 8; 7; 7])).
  { split; [discriminate|]. vm_compute. discriminate. }
  assert (Hpartial :
    (length (run_bits (RunIntervalCompare [10; 5; 3; 8; 7; 7]%Z)) mod 8)%nat
    <> 0%nat).
  { vm_compute. discriminate. }
  exact (conj Hadm (conj Hpartial
           (proj1 (C2_partial_final_byte _ Hadm Hpartial)))).
Defined.

(** C2 (counterexample): debias_bits of vomneu.c, given the pair (0,1),
    emits one bit and returns no byte at all: the partially filled byte is
    dropped, where von_neumann_extract returns it as 0x00. *)
Lemma C2_counterexample :
  VonNeumann [false; true] = [false]
  /\ Vomneu.debias_bits (map Z.b2z [false; true]) = Ok []
  /\ Extractor.von_neumann_extract (map Z.b2z [false; true]) = Ok [0]
  /\ ~ ends_in_padded_byte (VonNeumann [false; true])
                           (Vomneu.debias_bits (map Z.b2z [false; true])).
Proof.
  repeat split; try reflexivity.
  intros (final & Hout & _). vm_compute in Hout. discriminate.
Qed.

Lemma IntervalCompare_lookup (intervals : list Z) : forall (k : nat) a b,
  intervals !! (2 * k)%nat = Some a ->
  intervals !! (2 * k + 1)%nat = Some b ->
  IntervalCompare intervals !! k = Some (bool_decide (a > b)).
Proof.
  induction intervals as [| a0 | a0 b0 r IH] using list_pair_ind;
    intros k a b Ha Hb.
  - discriminate.
  - destruct k; [discriminate Hb|].
    replace (2 * S k)%nat with (S (S (2 * k))) in Ha by lia. discriminate Ha.
  - destruct k as [|k].
    + cbn in Ha, Hb. injection Ha as <-. injection Hb as <-.
      cbn [IntervalCompare]. cbn. f_equal.
      destruct (Z.gtb_spec a0 b0).
      * rewrite bool_decide_true; [reflexivity|lia].
      * rewrite bool_decide_false; [reflexivity|lia].
    + replace (2 * S k)%nat with (S (S (2 * k))) in Ha by lia.
      replace (2 * S k + 1)%nat with (S (S (2 * k + 1))) in Hb by lia.
      cbn [IntervalCompare]. cbn in Ha, Hb |- *. now apply IH.
Qed.

Lemma IntervalCompare_length (intervals : list Z) :
  length (IntervalCompare intervals) = (length intervals / 2)%nat.
Proof.
  induction intervals as [| a0 | a0 b0 r IH] using list_pair_ind;
    [reflexivity..|].
  cbn [IntervalCompare length]. rewrite IH.
  replace (S (S (length r))) with (1 * 2 + length r)%nat by lia.
  rewrite Nat.div_add_l by lia. lia.
Qed.

(** C7: interval_compare consumes its input in disjoint pairs (a,b),
    advancing by 2: bit k is 1 if intervals[2k] > intervals[2k+1] and 0
    otherwise (so 0 for equal intervals), and the bits are packed MSB-first;
    the input [10,5,3,8,7,7] gives the bits [1,0,0] and the single output
    byte 0x80. *)
Theorem C7_interval_compare (intervals : list Z)
    (Hne : intervals <> [])
    (Hmax : Z.of_nat (length intervals) <= MAX_BUFFER) :
  Extractor.interval_compare intervals = Ok (pack (IntervalCompare intervals))
  /\ length (IntervalCompare intervals) = (length intervals / 2)%nat
  /\ (forall (k : nat) a b,
        intervals !! (2 * k)%nat = Some a ->
        intervals !! (2 * k + 1)%nat = Some b ->
        IntervalCompare intervals !! k = Some (bool_decide (a > b)))
  /\ IntervalCompare [10; 5; 3; 8; 7; 7] = [true; false; false]
  /\ Extractor.interval_compare [10; 5; 3; 8; 7; 7] = Ok [128].
Proof.
  split; [now apply interval_compare_pack|].
  split; [apply IntervalCompare_length|].
  split; [apply IntervalCompare_lookup|].
  split; reflexivity.
Qed.

Lemma C7_interval_compare_witness :
  [10; 5; 3; 8; 7; 7] <> []
  /\ Z.of_nat (length [10; 5; 3; 8; 7; 7]) <= MAX_BUFFER
  /\ Extractor.interval_compare [10; 5; 3; 8; 7; 7]
     = Ok (pack (IntervalCompare [10; 5; 3; 8; 7; 7])).
Proof.
  assert (Hne : [10; 5; 3; 8; 7; 7] <> []) by discriminate.
  assert (Hmax : Z.of_nat (length [10; 5; 3; 8; 7; 7]) <= MAX_BUFFER)
    by (vm_compute; discriminate).
  exact (conj Hne (conj Hmax (proj1 (C7_interval_compare _ Hne Hmax)))).
Defined.

Lemma interval_compare_fold (intervals : list Z) :
  intervals <> [] -> Z.of_nat (length intervals) <= MAX_BUFFER ->
  Extractor.interval_compare intervals
  = Ok (flush (fold_pairs ic_body packer_init intervals)).
Proof.
  intros Hne Hmax. unfold Extractor.interval_compare. cbv zeta.
  now rewrite interval_compare_loop_eq, pair_loop_total by assumption.
Qed.

Lemma von_neumann_fold (input : list Z) :
  input <> [] -> Z.of_nat (length input) <= MAX_BUFFER ->
  Extractor.von_neumann_extract input
  = Ok (flush (fold_pairs vn_body packer_init input)).
Proof.
  intros Hne Hmax. unfold Extractor.von_neumann_extract. cbv zeta.
  now rewrite von_neumann_loop_eq, pair_loop_total by assumption.
Qed.

Lemma snoc_not_nil {A} (l : list A) x : l ++ [x] <> [].
Proof. destruct l; discriminate. Qed.

(** C10 (as amended): for both pairwise extractors, an input of odd length
    [l ++ [x]] gives a result that does not depend on the trailing sample
    [x], and, when the input has at least 3 samples (so that [l] is not
    empty), exactly the result of the input with its final sample removed. *)
Theorem C10_trailing_sample (l : list Z) (x : Z)
    (Heven : Nat.Even (length l))
    (Hmax : Z.of_nat (length (l ++ [x])) <= MAX_BUFFER) :
  (exists out,
      Extractor.interval_compare (l ++ [x]) = Ok out
      /\ (forall y, Extractor.interval_compare (l ++ [y]) = Ok out)
      /\ (l <> [] -> Extractor.interval_compare l = Ok out))
  /\ (exists out,
      Extractor.von_neumann_extract (l ++ [x]) = Ok out
      /\ (forall y, Extractor.von_neumann_extract (l ++ [y]) = Ok out)
      /\ (l <> [] -> Extractor.von_neumann_extract l = Ok out)).
Proof.
  rewrite length_app in Hmax. cbn [length] in Hmax.
  assert (Hsnoc : forall y, Z.of_nat (length (l ++ [y])) <= MAX_BUFFER)
    by (intros y; rewrite length_app; cbn [length]; lia).
  split.
  - exists (flush (fold_pairs ic_body packer_init l)). repeat split.
    + rewrite interval_compare_fold by (apply snoc_not_nil || apply Hsnoc).
      now rewrite fold_pairs_odd.
    + intros y.
      rewrite interval_compare_fold by (apply snoc_not_nil || apply Hsnoc).
      now rewrite fold_pairs_odd.
    + intros Hne. apply interval_compare_fold; [assumption|lia].
  - exists (flush (fold_pairs vn_body packer_init l)). repeat split.
    + rewrite von_neumann_fold by (apply snoc_not_nil || apply Hsnoc).
      now rewrite fold_pairs_odd.
    + intros y.
      rewrite von_neumann_fold by (apply snoc_not_nil || apply Hsnoc).
      now rewrite fold_pairs_odd.
    + intros Hne. apply von_neumann_fold; [assumption|lia].
Qed.

Lemma C10_trailing_sample_witness :
  Nat.Even (length [10; 5])
  /\ Z.of_nat (length ([10; 5] ++ [3])) <= MAX_BUFFER
  /\ exists out,
       Extractor.interval_compare ([10; 5] ++ [3]) = Ok out
       /\ (forall y, Extractor.interval_compare ([10; 5] ++ [y]) = Ok out)
       /\ ([10; 5] <> [] -> Extractor.interval_compare [10; 5] = Ok out).
Proof.
  assert (Heven : Nat.Even (length [10; 5])) by (exists 1%nat; reflexivity).
  assert (Hmax : Z.of_nat (length ([10; 5] ++ [3])) <= MAX_BUFFER)
    by (vm_compute; discriminate).
  exact (conj Heven (conj Hmax (proj1 (C10_trailing_sample _ 3 Heven Hmax)))).
Defined.

(** C10 (counterexample): the odd-length input [7] gives the empty output,
    but with its final sample removed the input is empty: both pairwise
    extractors then read outside the array ([count - 1] wraps around), and
    [main] ends with status 1 instead of 0. *)
Lemma C10_counterexample :
  Extractor.interval_compare [7] = Ok []
  /\ Extractor.interval_compare (removelast [7]) = Fault OutOfRange
  /\ Extractor.interval_compare [7]
     <> Extractor.interval_compare (removelast [7])
  /\ Extractor.von_neumann_extract [1] = Ok []
  /\ Extractor.von_neumann_extract (removelast [1]) = Fault OutOfRange
  /\ Extractor.von_neumann_extract [1]
     <> Extractor.von_neumann_extract (removelast [1])
  /\ Extractor.main 0 0 [7] = Extractor.Exit 0 []
  /\ Extractor.main 0 0 (removelast [7]) = Extractor.Exit 1 [].
Proof.
  repeat split; try (vm_compute; reflexivity); vm_compute; discriminate.
Qed.

(** C3 (as amended): on an empty input the extractor program stops with
    exit status 1 before any extractor is called; extract_lsbs called on an
    empty sequence returns an empty output; and on a single sample
    interval_compare, von_neumann_extract and xor_fold return an empty
    output without any out-of-range access. *)
Theorem C3_empty_and_single_sample :
  (forall method bit_pos,
     Extractor.main method bit_pos [] = Extractor.Exit 1 [])
  /\ (forall bit_pos, Extractor.extract_lsbs [] bit_pos = Ok [])
  /\ (forall x,
        Extractor.interval_compare [x] = Ok []
        /\ Extractor.von_neumann_extract [x] = Ok []
        /\ Extractor.xor_fold [x] = Ok []).
Proof.
  split; [reflexivity|]. split; [reflexivity|].
  intros x. repeat split; reflexivity.
Qed.

(** C3 (counterexample): on the empty input interval_compare,
    von_neumann_extract and xor_fold compute the loop bound [count - 1] as
    [SIZE_MAX] and read outside the array, and [main] reports a failure. *)
Lemma C3_counterexample :
  Extractor.interval_compare [] = Fault OutOfRange
  /\ Extractor.von_neumann_extract [] = Fault OutOfRange
  /\ Extractor.xor_fold [] = Fault OutOfRange
  /\ Extractor.interval_compare [] <> Ok []
  /\ Extractor.main 0 0 [] = Extractor.Exit 1 [].
Proof.
  repeat split; try (vm_compute; reflexivity). vm_compute. discriminate.
Qed.

End ExtractorClaims.

(** ** Claims about the dead-time filter *)

Section DeadTime.

Import Filter.

Lemma chain_snoc R (l : list Z) t :
  chain R (l ++ [t]) <-> chain R l /\ (l = [] \/ R (List.last l 0) t).
Proof.
  induction l as [|a l IH].
  - cbn. tauto.
  - destruct l as [|b l].
    + cbn. split; [intros [H _]; auto|intros [_ [H|H]]; [discriminate|auto]].
    + change ((a :: b :: l) ++ [t]) with (a :: (b :: l) ++ [t]).
      change (chain R (a :: (b :: l) ++ [t]))
        with (R a b /\ chain R ((b :: l) ++ [t])).
      change (chain R (a :: b :: l)) with (R a b /\ chain R (b :: l)).
      change (List.last (a :: b :: l) 0) with (List.last (b :: l) 0).
      rewrite IH. split.
      * intros (Hab & Hc & [H|H]); [discriminate|auto].
      * intros ((Hab & Hc) & [H|H]); [discriminate|auto].
Qed.

Lemma chain_tail R a (l : list Z) : chain R (a :: l) -> chain R l.
Proof. destruct l; [trivial|]. now intros [_ H]. Qed.

Lemma chain_app_last R (l1 : list Z) t (l2 : list Z) :
  l1 <> [] -> chain R (l1 ++ t :: l2) -> R (List.last l1 0) t.
Proof.
  induction l1 as [|a l1 IH]; intros Hne Hc; [congruence|].
  destruct l1 as [|b l1].
  - cbn in Hc |- *. tauto.
  - change (List.last (a :: b :: l1) 0) with (List.last (b :: l1) 0).
    apply IH; [discriminate|]. now apply chain_tail in Hc.
Qed.

Lemma chain_lookup R (l : list Z) : chain R l ->
  forall (i : nat) a b, l !! i = Some a -> l !! S i = Some b -> R a b.
Proof.
  induction l as [|x l IH]; intros Hc i a b Ha Hb; [discriminate|].
  destruct i as [|i].
  - destruct l as [|y l]; [discriminate|].
    cbn in Ha, Hb. injection Ha as <-. injection Hb as <-. apply Hc.
  - apply (IH (chain_tail _ _ _ Hc) i); assumption.
Qed.

(** The loop only appends to [filtered], and what it appends is taken from
    the remaining input in order. *)
Lemma dead_time_loop_kept rest dead_time : forall filtered,
  exists kept,
    dead_time_loop rest dead_time filtered = filtered ++ kept
    /\ kept `sublist_of` rest.
Proof.
  induction rest as [|t rest IH]; intros filtered.
  - exists []. split; [now rewrite app_nil_r|constructor].
  - cbn [dead_time_loop].
    destruct (u64 (t - List.last filtered 0) >? dead_time).
    + destruct (IH (filtered ++ [t])) as (kept & -> & Hsub).
      exists (t :: kept). split; [now rewrite <- app_assoc|].
      now apply sublist_skip.
    + destruct (IH filtered) as (kept & -> & Hsub).
      exists kept. split; [reflexivity|]. now apply sublist_cons.
Qed.

(** Every sample the loop keeps passed the test against its predecessor. *)
Lemma dead_time_loop_chain rest dead_time : forall filtered,
  chain (spaced dead_time) filtered ->
  chain (spaced dead_time) (dead_time_loop rest dead_time filtered).
Proof.
  induction rest as [|t rest IH]; intros filtered Hc; [assumption|].
  cbn [dead_time_loop].
  destruct (Z.gtb_spec (u64 (t - List.last filtered 0)) dead_time) as [Hgt|_].
  - apply IH. apply chain_snoc. split; [assumption|].
    right. unfold spaced. lia.
  - now apply IH.
Qed.

(** A sequence that is already spaced passes the loop unchanged. *)
Lemma dead_time_loop_fixed rest dead_time : forall filtered,
  filtered <> [] ->
  chain (spaced dead_time) (filtered ++ rest) ->
  dead_time_loop rest dead_time filtered = filtered ++ rest.
Proof.
  induction rest as [|t rest IH]; intros filtered Hne Hc.
  - cbn. now rewrite app_nil_r.
  - cbn [dead_time_loop].
    pose proof (chain_app_last _ _ _ _ Hne Hc) as Hsp. unfold spaced in Hsp.
    destruct (Z.gtb_spec (u64 (t - List.last filtered 0)) dead_time) as [_|Hle];
      [|lia].
    rewrite IH.
    + now rewrite <- app_assoc.
    + destruct filtered; discriminate.
    + now rewrite <- app_assoc.
Qed.

Lemma apply_dead_time_chain timestamps dead_time :
  chain (spaced dead_time) (apply_dead_time timestamps dead_time).
Proof.
  destruct timestamps as [|t0 rest]; [exact I|].
  apply dead_time_loop_chain. exact I.
Qed.

(** C9: dead-time filtering is idempotent: for every sample sequence and
    every threshold, filtering the filtered sequence again with the same
    threshold returns it unchanged. *)
Theorem C9_dead_time_idempotent (s : list Z) (d : Z) :
  apply_dead_time (apply_dead_time s d) d = apply_dead_time s d.
Proof.
  pose proof (apply_dead_time_chain s d) as Hc.
  destruct s as [|t0 rest]; [reflexivity|].
  cbn [apply_dead_time] in *.
  destruct (dead_time_loop_kept rest d [t0]) as (kept & E & _).
  rewrite E in *. cbn [app] in *.
  apply (dead_time_loop_fixed kept d [t0]); [discriminate|exact Hc].
Qed.

Lemma sublist_StronglySorted (R : Z -> Z -> Prop) (l1 l2 : list Z) :
  l1 `sublist_of` l2 -> StronglySorted R l2 -> StronglySorted R l1.
Proof.
  induction 1 as [|x l1 l2 Hsub IH|x l1 l2 Hsub IH]; intros Hs.
  - constructor.
  - apply StronglySorted_inv in Hs as [Hs Hall]. constructor; [auto|].
    rewrite Forall_forall in Hall |- *.
    intros y Hy. apply Hall. eapply elem_of_sublist; eassumption.
  - apply StronglySorted_inv in Hs as [Hs _]. auto.
Qed.

Lemma sublist_Forall (P : Z -> Prop) (l1 l2 : list Z) :
  l1 `sublist_of` l2 -> Forall P l2 -> Forall P l1.
Proof.
  intros Hsub Hall. rewrite Forall_forall in Hall |- *.
  intros y Hy. apply Hall. eapply elem_of_sublist; eassumption.
Qed.

Lemma StronglySorted_lookup_le (l : list Z) :
  StronglySorted Z.le l ->
  forall (i j : nat) a b,
    (i <= j)%nat -> l !! i = Some a -> l !! j = Some b -> a <= b.
Proof.
  induction 1 as [|x l Hs IH Hall]; intros i j a b Hij Ha Hb; [discriminate|].
  destruct i as [|i], j as [|j]; try lia.
  - cbn in Ha, Hb. injection Ha as <-. injection Hb as <-. lia.
  - cbn in Ha, Hb. injection Ha as <-.
    rewrite Forall_forall in Hall. apply Hall.
    apply list_elem_of_lookup. eauto.
  - apply (IH i j); [lia|assumption..].
Qed.

(** C4: for a non-empty sequence of non-decreasing u64 timestamps and any
    dead time, apply_dead_time keeps the first sample, returns a subsequence
    of the input in the input's order, and every two consecutive kept
    samples differ by strictly more than the dead time; the empty input
    gives the empty output. *)
Theorem C4_dead_time (timestamps : list Z) (dead_time : Z)
    (Hne : timestamps <> [])
    (Hu64 : Forall is_u64 timestamps)
    (Hsorted : Sorted Z.le timestamps) :
  head (apply_dead_time timestamps dead_time) = head timestamps
  /\ apply_dead_time timestamps dead_time `sublist_of` timestamps
  /\ (forall (i : nat) a b,
        apply_dead_time timestamps dead_time !! i = Some a ->
        apply_dead_time timestamps dead_time !! S i = Some b ->
        b - a > dead_time)
  /\ apply_dead_time [] dead_time = [].
Proof.
  pose proof (apply_dead_time_chain timestamps dead_time) as Hc.
  destruct timestamps as [|t0 rest]; [congruence|].
  cbn [apply_dead_time] in *.
  destruct (dead_time_loop_kept rest dead_time [t0]) as (kept & E & Hsub).
  rewrite E in *. cbn [app] in *.
  assert (Hsub' : (t0 :: kept) `sublist_of` (t0 :: rest))
    by now apply sublist_skip.
  split; [reflexivity|]. split; [assumption|]. split; [|reflexivity].
  intros i a b Ha Hb.
  pose proof (chain_lookup _ _ Hc i a b Ha Hb) as Hsp. unfold spaced in Hsp.
  assert (Hss : StronglySorted Z.le (t0 :: kept)).
  { eapply sublist_StronglySorted; [eassumption|].
    apply Sorted_StronglySorted; [|assumption].
    intros x y z. apply Z.le_trans. }
  pose proof (StronglySorted_lookup_le _ Hss i (S i) a b ltac:(lia) Ha Hb)
    as Hle.
  pose proof (sublist_Forall _ _ _ Hsub' Hu64) as Hall.
  rewrite Forall_forall in Hall.
  assert (Hua : is_u64 a) by (apply Hall, list_elem_of_lookup; eauto).
  assert (Hub : is_u64 b) by (apply Hall, list_elem_of_lookup; eauto).
  unfold is_u64 in Hua, Hub. unfold u64 in Hsp.
  rewrite Z.mod_small in Hsp by lia. assumption.
Qed.

Lemma C4_dead_time_witness :
  [0; 50; 150; 151; 400] <> []
  /\ Forall is_u64 [0; 50; 150; 151; 400]
  /\ Sorted Z.le [0; 50; 150; 151; 400]
  /\ apply_dead_time [0; 50; 150; 151; 400] 100
     `sublist_of` [0; 50; 150; 151; 400]
  /\ apply_dead_time [0; 50; 150; 151; 400] 100 = [0; 150; 400].
Proof.
  assert (Hne : [0; 50; 150; 151; 400] <> []) by discriminate.
  assert (Hu64 : Forall is_u64 [0; 50; 150; 151; 400])
    by (repeat constructor; vm_compute; congruence).
  assert (Hsorted : Sorted Z.le [0; 50; 150; 151; 400])
    by (repeat constructor; vm_compute; congruence).
  exact (conj Hne (conj Hu64 (conj Hsorted
           (conj (proj1 (proj2 (C4_dead_time _ 100 Hne Hu64 Hsorted)))
                 eq_refl)))).
Defined.

End DeadTime.

(** ** Claims about the packet codec *)

Section Codec.

Import Trng.

Lemma layout_offsets abi :
  abi_ok abi ->
  offsetof_timestamp_ns abi = 0 /\ offsetof_delta_ns abi = 8
  /\ offsetof_sequence abi = 16.
Proof.
  unfold offsetof_sequence, offsetof_delta_ns, offsetof_timestamp_ns.
  intros [E|E]; rewrite E; repeat split; reflexivity.
Qed.

Lemma layout_sizeof abi :
  abi_ok abi ->
  sizeof_TRNGPacket abi = if uint64_align abi =? 8 then 24 else 20.
Proof.
  unfold sizeof_TRNGPacket, offsetof_sequence, offsetof_delta_ns,
    offsetof_timestamp_ns.
  intros [E|E]; rewrite E; reflexivity.
Qed.

Lemma sizeof_ge_20 abi : abi_ok abi -> 20 <= sizeof_TRNGPacket abi.
Proof.
  intros H. rewrite layout_sizeof by assumption.
  destruct (uint64_align abi =? 8); lia.
Qed.

Lemma length_be_bytes n x : length (be_bytes n x) = n.
Proof. unfold be_bytes. now rewrite length_rev, length_le_split. Qed.

(** Whatever the host byte order, the object representation of
    [htobe64(x)] (and of [htonl(x)]) is the big-endian serialisation. *)
Lemma store_htobe abi n x :
  store abi n (if big_endian_host abi then x else bswap n x) = be_bytes n x.
Proof.
  unfold store, bswap, be_bytes. destruct (big_endian_host abi); [reflexivity|].
  rewrite <- (length_le_split n x) at 1. rewrite <- length_rev.
  apply split_le_combine.
Qed.

(** Whatever the host byte order, [be64toh] (and [ntohl]) of a loaded object
    is the big-endian value of its bytes. *)
Lemma betoh_load abi bs :
  (if big_endian_host abi then load abi bs
   else bswap (length bs) (load abi bs)) = be_value bs.
Proof.
  unfold load, bswap, be_value. destruct (big_endian_host abi); [reflexivity|].
  now rewrite split_le_combine.
Qed.

Lemma be_value_be_bytes n x :
  be_value (be_bytes n x) = x mod 2 ^ (Z.of_nat n * 8).
Proof.
  unfold be_value, be_bytes. rewrite rev_involutive. apply le_combine_split.
Qed.

Lemma length_uninitialised abi junk :
  length (uninitialised abi junk) = Z.to_nat (sizeof_TRNGPacket abi).
Proof. unfold uninitialised. now rewrite length_map, length_seq. Qed.

Lemma write_at_app off (pre old post bs : list byte) :
  Z.to_nat off = length pre -> length old = length bs ->
  write_at off bs (pre ++ old ++ post) = pre ++ bs ++ post.
Proof.
  intros Hoff Hlen. unfold write_at. rewrite Hoff.
  rewrite take_app_length, drop_app_add, <- Hlen, drop_app_length.
  reflexivity.
Qed.

Lemma read_at_app off (pre bs post : list byte) n :
  Z.to_nat off = length pre -> n = length bs ->
  read_at off n (pre ++ bs ++ post) = bs.
Proof.
  intros Hoff ->. unfold read_at. rewrite Hoff.
  now rewrite drop_app_length, take_app_length.
Qed.

(** The object sent: the three fields big-endian at offsets 0, 8 and 16,
    then the tail padding. *)
Lemma net_packet_image abi junk p :
  abi_ok abi ->
  net_packet abi junk p = wire_encode p ++ tail_padding abi junk.
Proof.
  intros Hok. destruct (layout_offsets abi Hok) as (E0 & E8 & E16).
  pose proof (sizeof_ge_20 abi Hok) as Hsize.
  pose proof (length_uninitialised abi junk) as Hlen.
  unfold net_packet, wire_encode, tail_padding, htobe64, htonl.
  rewrite E0, E8, E16, !store_htobe.
  set (m0 := uninitialised abi junk) in *.
  set (a := be_bytes 8 (timestamp_ns p)).
  set (b := be_bytes 8 (delta_ns p)).
  set (c := be_bytes 4 (sequence p)).
  assert (Ha : length a = 8%nat) by apply length_be_bytes.
  assert (Hb : length b = 8%nat) by apply length_be_bytes.
  assert (Hc : length c = 4%nat) by apply length_be_bytes.
  assert (Hm : m0 = take 8 m0 ++ take 8 (drop 8 m0)
                    ++ take 4 (drop 16 m0) ++ drop 20 m0).
  { rewrite <- (take_drop 8 m0) at 1. f_equal.
    rewrite <- (take_drop 8 (drop 8 m0)) at 1. f_equal.
    rewrite drop_drop. cbn [Nat.add].
    rewrite <- (take_drop 4 (drop 16 m0)) at 1. f_equal.
    now rewrite drop_drop. }
  rewrite Hm at 1.
  pose proof (write_at_app 0 [] (take 8 m0)
                (take 8 (drop 8 m0) ++ take 4 (drop 16 m0) ++ drop 20 m0) a
                eq_refl) as E.
  cbn [app] in E. rewrite E by (rewrite length_take, Ha; lia). clear E.
  rewrite (write_at_app 8 a (take 8 (drop 8 m0)) _ b);
    [|rewrite Ha; reflexivity|rewrite length_take, length_drop, Hb; lia].
  rewrite (app_assoc a b).
  rewrite (write_at_app 16 (a ++ b) (take 4 (drop 16 m0)) _ c);
    [|rewrite length_app, Ha, Hb; reflexivity
     |rewrite length_take, length_drop, Hc; lia].
  now rewrite <- app_assoc.
Qed.

Lemma length_wire_encode p : length (wire_encode p) = 20%nat.
Proof. unfold wire_encode. now rewrite !length_app, !length_be_bytes. Qed.

Lemma length_net_packet abi junk p :
  abi_ok abi ->
  Z.of_nat (length (net_packet abi junk p)) = sizeof_TRNGPacket abi.
Proof.
  intros Hok. rewrite net_packet_image by assumption.
  unfold tail_padding.
  rewrite length_app, length_wire_encode, length_drop, length_uninitialised.
  pose proof (sizeof_ge_20 abi Hok). lia.
Qed.

(** Decoding reads the big-endian values at offsets 0, 8 and 16. *)
Lemma decode_image abi p rest :
  abi_ok abi ->
  decode abi (wire_encode p ++ rest)
  = Packet (u64 (timestamp_ns p)) (u64 (delta_ns p)) (u32 (sequence p)).
Proof.
  intros Hok. destruct (layout_offsets abi Hok) as (E0 & E8 & E16).
  unfold decode, wire_encode, be64toh, ntohl.
  rewrite E0, E8, E16.
  set (a := be_bytes 8 (timestamp_ns p)).
  set (b := be_bytes 8 (delta_ns p)).
  set (c := be_bytes 4 (sequence p)).
  assert (Ha : length a = 8%nat) by apply length_be_bytes.
  assert (Hb : length b = 8%nat) by apply length_be_bytes.
  assert (Hc : length c = 4%nat) by apply length_be_bytes.
  rewrite <- !app_assoc.
  pose proof (read_at_app 0 [] a (b ++ c ++ rest) 8 eq_refl) as E.
  cbn [app] in E. rewrite E by (now rewrite Ha). clear E.
  rewrite (read_at_app 8 a b (c ++ rest) 8) by (now rewrite Ha || now rewrite Hb).
  rewrite (app_assoc a b (c ++ rest)).
  rewrite (read_at_app 16 (a ++ b) c rest 4)
    by (now rewrite length_app, Ha, Hb || now rewrite Hc).
  pose proof (betoh_load abi a) as Ea. rewrite Ha in Ea.
  pose proof (betoh_load abi b) as Eb. rewrite Hb in Eb.
  pose proof (betoh_load abi c) as Ec. rewrite Hc in Ec.
  rewrite Ea, Eb, Ec. unfold a, b, c.
  now rewrite !be_value_be_bytes.
Qed.

Lemma send_packet_datagram abi junk p :
  abi_ok abi ->
  send_packet abi true true junk p
  = (0, Some (wire_encode p ++ tail_padding abi junk)).
Proof.
  intros Hok. unfold send_packet. cbn [negb]. do 2 f_equal.
  rewrite <- (length_net_packet abi junk p Hok), Nat2Z.id, firstn_all.
  now apply net_packet_image.
Qed.

Lemma receive_accepts_iff abi mem d :
  (exists q, receive_iteration abi mem (RecvDatagram d) = Accepted q)
  <-> recvfrom_count abi d = sizeof_TRNGPacket abi.
Proof.
  unfold receive_iteration.
  destruct (Z.eqb_spec (recvfrom_count abi d) (sizeof_TRNGPacket abi)) as [E|E];
    cbn [negb].
  - split; [intros _; exact E|intros _; eauto].
  - split; [intros [q Hq]; discriminate|contradiction].
Qed.

Lemma receive_full abi mem d :
  Z.of_nat (length d) = sizeof_TRNGPacket abi ->
  receive_iteration abi mem (RecvDatagram d)
  = Accepted (decode abi (d ++ drop (length d) mem)).
Proof.
  intros Hlen. unfold receive_iteration, recvfrom_count, recvfrom_copy.
  cbv zeta. rewrite <- Hlen, Z.min_id, Z.eqb_refl, Nat2Z.id, firstn_all.
  reflexivity.
Qed.

(** The [packet] object is overwritten by every accepted datagram: what it
    held before does not matter. *)
Lemma receive_iteration_mem abi mem mem' ev :
  abi_ok abi ->
  receive_iteration abi mem ev = receive_iteration abi mem' ev.
Proof.
  intros Hok. destruct ev as [errno|d]; [reflexivity|].
  unfold receive_iteration. cbv zeta.
  destruct (Z.eqb_spec (recvfrom_count abi d) (sizeof_TRNGPacket abi)) as [E|E];
    [|reflexivity].
  cbn [negb]. f_equal.
  pose proof (sizeof_ge_20 abi Hok) as Hsize.
  unfold recvfrom_count in E.
  unfold recvfrom_copy, write_at. change (Z.to_nat 0) with 0%nat.
  rewrite !take_0. cbn [app Nat.add].
  set (bs := take (Z.to_nat (sizeof_TRNGPacket abi)) d).
  assert (Hbs : (20 <= length bs)%nat) by (unfold bs; rewrite length_take; lia).
  destruct (layout_offsets abi Hok) as (E0 & E8 & E16).
  unfold decode, read_at. rewrite E0, E8, E16.
  change (Z.to_nat 0) with 0%nat. change (Z.to_nat 8) with 8%nat.
  change (Z.to_nat 16) with 16%nat.
  rewrite !drop_app_le, !take_app_le
    by (try rewrite length_drop; lia).
  reflexivity.
Qed.

Lemma valid_packet_wrap p :
  valid_packet p ->
  Packet (u64 (timestamp_ns p)) (u64 (delta_ns p)) (u32 (sequence p)) = p.
Proof.
  destruct p as [ts delta sq]. unfold valid_packet, is_u64, is_u32, u64, u32.
  cbn. intros (Hts & Hd & Hs).
  now rewrite !Z.mod_small by assumption.
Qed.

(** C1 (as amended): the producer sends exactly sizeof(TRNGPacket) bytes:
    the 20-byte big-endian serialisation of the three fields in declared
    order followed by the tail padding of the struct (24 bytes in all where
    uint64_t is 8-byte aligned, 20 where it is 4-byte aligned); the receive
    loop accepts a datagram exactly when recvfrom reports sizeof(TRNGPacket)
    bytes, so it accepts a datagram of that length and discards every
    shorter one, continuing the loop. *)
Theorem C1_wire_size (abi : ABI) (junk : nat -> byte) (p : TRNGPacket)
    (Hok : abi_ok abi) :
  send_packet abi true true junk p
  = (0, Some (wire_encode p ++ tail_padding abi junk))
  /\ length (wire_encode p) = 20%nat
  /\ Z.of_nat (length (wire_encode p ++ tail_padding abi junk))
     = sizeof_TRNGPacket abi
  /\ sizeof_TRNGPacket abi = (if uint64_align abi =? 8 then 24 else 20)
  /\ (forall mem d,
        (exists q, receive_iteration abi mem (RecvDatagram d) = Accepted q)
        <-> recvfrom_count abi d = sizeof_TRNGPacket abi)
  /\ (forall mem d,
        Z.of_nat (length d) = sizeof_TRNGPacket abi ->
        exists q, receive_iteration abi mem (RecvDatagram d) = Accepted q)
  /\ (forall mem d events,
        Z.of_nat (length d) < sizeof_TRNGPacket abi ->
        receive_iteration abi mem (RecvDatagram d)
        = Discarded (Z.of_nat (length d))
        /\ run_receive_mode abi mem (RecvDatagram d :: events)
           = run_receive_mode abi mem events).
Proof.
  split; [now apply send_packet_datagram|].
  split; [apply length_wire_encode|].
  split; [rewrite <- net_packet_image by assumption;
          now apply length_net_packet|].
  split; [now apply layout_sizeof|].
  split; [intros; apply receive_accepts_iff|].
  split.
  - intros mem d Hlen. apply receive_accepts_iff.
    unfold recvfrom_count. lia.
  - intros mem d events Hlen.
    assert (E : receive_iteration abi mem (RecvDatagram d)
                = Discarded (Z.of_nat (length d))).
    { unfold receive_iteration, recvfrom_count.
      rewrite Z.min_l by lia.
      destruct (Z.eqb_spec (Z.of_nat (length d)) (sizeof_TRNGPacket abi));
        [lia|reflexivity]. }
    split; [exact E|]. cbn [run_receive_mode]. now rewrite E.
Qed.

Lemma C1_wire_size_witness :
  abi_ok aarch64
  /\ send_packet aarch64 true true (fun _ => Byte.x00) (Packet 1 2 3)
     = (0, Some (wire_encode (Packet 1 2 3)
                 ++ tail_padding aarch64 (fun _ => Byte.x00))).
Proof.
  assert (Hok : abi_ok aarch64) by (right; reflexivity).
  exact (conj Hok
           (proj1 (C1_wire_size aarch64 (fun _ => Byte.x00) (Packet 1 2 3) Hok))).
Defined.

(** C1 (counterexample): on AArch64 (as on x86-64) the producer sends 24
    bytes for the packet (1, 2, 3), not 20, and the receive loop discards
    the 20-byte big-endian serialisation of that packet. *)
Lemma C1_counterexample :
  snd (send_packet aarch64 true true (fun _ => Byte.xff) (Packet 1 2 3))
  = Some (map byte.of_Z [0; 0; 0; 0; 0; 0; 0; 1;  0; 0; 0; 0; 0; 0; 0; 2;
                         0; 0; 0; 3;  255; 255; 255; 255])
  /\ length (wire_encode (Packet 1 2 3)) = 20%nat
  /\ receive_iteration aarch64 (uninitialised aarch64 (fun _ => Byte.xff))
                       (RecvDatagram (wire_encode (Packet 1 2 3)))
     = Discarded 20.
Proof. repeat split; vm_compute; reflexivity. Qed.

(** C6: decoding the encoding of a packet gives the packet back, for all
    u64 timestamps and deltas and all u32 sequence numbers, whatever the
    byte order of the sending and of the receiving host; and the receive
    loop decodes exactly the packet that send_packet was given. *)
Theorem C6_packet_round_trip (abi_s abi_r : ABI) (junk : nat -> byte)
    (p : TRNGPacket)
    (Hs : abi_ok abi_s) (Hr : abi_ok abi_r) (Hp : valid_packet p) :
  decode abi_r (net_packet abi_s junk p) = p
  /\ (forall mem datagram,
        sizeof_TRNGPacket abi_r = sizeof_TRNGPacket abi_s ->
        snd (send_packet abi_s true true junk p) = Some datagram ->
        receive_iteration abi_r mem (RecvDatagram datagram) = Accepted p).
Proof.
  split.
  - rewrite net_packet_image, decode_image by assumption.
    now apply valid_packet_wrap.
  - intros mem datagram Hsize Hsend.
    rewrite send_packet_datagram in Hsend by assumption.
    unfold snd in Hsend.
    assert (Hd : datagram = wire_encode p ++ tail_padding abi_s junk)
      by congruence.
    clear Hsend. subst datagram.
    pose proof (length_net_packet abi_s junk p Hs) as Hlen.
    rewrite net_packet_image in Hlen by assumption.
    rewrite receive_full by (rewrite Hlen; symmetry; exact Hsize). f_equal.
    rewrite <- app_assoc, decode_image by assumption.
    now apply valid_packet_wrap.
Qed.

Lemma C6_packet_round_trip_witness :
  abi_ok i386 /\ abi_ok x86_64
  /\ valid_packet (Packet 1700000000000000000 123456 7)
  /\ decode x86_64 (net_packet i386 (fun _ => Byte.x00)
                               (Packet 1700000000000000000 123456 7))
     = Packet 1700000000000000000 123456 7.
Proof.
  assert (Hs : abi_ok i386) by (left; reflexivity).
  assert (Hr : abi_ok x86_64) by (right; reflexivity).
  assert (Hp : valid_packet (Packet 1700000000000000000 123456 7))
    by (unfold valid_packet, is_u64, is_u32; cbn; lia).
  exact (conj Hs (conj Hr (conj Hp
           (proj1 (C6_packet_round_trip i386 x86_64 (fun _ => Byte.x00) _
                     Hs Hr Hp))))).
Defined.

End Codec.

(** ** Claims about the time-window reduction *)

Section Window.

Import Filter WindowSpec.

Lemma window_floor_eq t ws :
  is_u64 t -> 0 < ws -> window_floor t ws = floor_of ws t.
Proof.
  unfold is_u64, window_floor, floor_of, u64. intros Ht Hws.
  assert (0 <= t / ws) by (apply Z.div_pos; lia).
  pose proof (Z.mul_div_le t ws Hws).
  rewrite (Z.mod_small (t / ws)) by nia.
  apply Z.mod_small. nia.
Qed.

Lemma floor_of_mono ws a b : 0 < ws -> a <= b -> floor_of ws a <= floor_of ws b.
Proof.
  intros Hws Hab. unfold floor_of.
  apply Z.mul_le_mono_nonneg_r; [lia|]. now apply Z.div_le_mono.
Qed.

Lemma wrapped_sum_indices (ts : list Z) : forall (k s : nat) acc,
  (s + k <= length ts)%nat ->
  fold_left (fun sum j => u64 (sum + at_index ts j))
            (seqZ (Z.of_nat s) (Z.of_nat k)) acc
  = fold_left (fun sum t => u64 (sum + t)) (take k (drop s ts)) acc.
Proof.
  induction k as [|k IH]; intros s acc Hk; [reflexivity|].
  rewrite seqZ_cons by lia.
  destruct (lookup_lt_is_Some_2 ts s ltac:(lia)) as [x Hx].
  rewrite (drop_S _ _ _ Hx). cbn [take fold_left].
  replace (Z.succ (Z.of_nat s)) with (Z.of_nat (S s)) by lia.
  replace (Z.pred (Z.of_nat (S k))) with (Z.of_nat k) by lia.
  rewrite IH by lia. f_equal. f_equal. f_equal.
  unfold at_index. rewrite Nat2Z.id. now apply nth_lookup_Some.
Qed.

(** The value the loop body stores when it closes the window of the
    samples [timestamps[s .. i)]. *)
Lemma representative_window (ts : list Z) mode (s i : nat) :
  (s < i <= length ts)%nat -> Z.of_nat (length ts) <= MAX_BUFFER ->
  mode = 0 \/ mode = 1 \/ mode = 2 ->
  representative ts mode (Z.of_nat s) (Z.of_nat i)
  = [emitted mode (take (i - s) (drop s ts))].
Proof.
  intros Hi Hmax Hmode. unfold representative, emitted.
  destruct (lookup_lt_is_Some_2 ts s ltac:(lia)) as [x Hx].
  destruct (lookup_lt_is_Some_2 ts (i - 1) ltac:(lia)) as [y Hy].
  destruct Hmode as [->|[->| ->]]; cbn [Z.eqb Pos.eqb]; f_equal.
  - unfold at_index. rewrite Nat2Z.id, (nth_lookup_Some _ _ _ _ Hx).
    rewrite (drop_S _ _ _ Hx).
    destruct (i - s)%nat as [|k] eqn:E; [lia|]. reflexivity.
  - unfold at_index.
    replace (Z.to_nat (Z.of_nat i - 1)) with (i - 1)%nat by lia.
    rewrite (nth_lookup_Some _ _ _ _ Hy).
    destruct (i - s)%nat as [|k] eqn:E; [lia|].
    rewrite (take_S_r _ _ y).
    + now rewrite last_last.
    + rewrite lookup_drop. rewrite <- Hy. f_equal. lia.
  - unfold window_sum, wrapped_sum.
    replace (Z.of_nat i - Z.of_nat s) with (Z.of_nat (i - s)) by lia.
    rewrite wrapped_sum_indices by lia.
    rewrite size_t_small by lia.
    rewrite length_take, length_drop. do 2 f_equal. lia.
Qed.

Lemma windows_head ws (l : list Z) t0 :
  l !! 0%nat = Some t0 ->
  windows ws l = windows_from ws [t0] (floor_of ws t0) (drop 1 l).
Proof. destruct l; [discriminate|]. cbn. now intros [= ->]. Qed.

Section Loop.

Variables (ts : list Z) (ws mode : Z).
Hypothesis Hu64 : Forall is_u64 ts.
Hypothesis Hsorted : Sorted Z.le ts.
Hypothesis Hws : 0 < ws.
Hypothesis Hmax : Z.of_nat (length ts) <= MAX_BUFFER.
Hypothesis Hmode : mode = 0 \/ mode = 1 \/ mode = 2.
(** The boundary that closes a window can be represented. *)
Hypothesis Hfinal : Forall (fun t => floor_of ws t + ws < 2 ^ 64) ts.

Lemma sorted_lookup_le (i j : nat) a b :
  (i <= j)%nat -> ts !! i = Some a -> ts !! j = Some b -> a <= b.
Proof.
  apply StronglySorted_lookup_le.
  apply Sorted_StronglySorted; [|assumption]. intros x y z. apply Z.le_trans.
Qed.

(** The loop from iteration [i] on, with the window [timestamps[s .. i)]
    open: it appends one value for that window and for each later one. *)
Lemma window_loop : forall (m i s : nat) out x,
  (i + m = length ts)%nat -> (s < i)%nat -> ts !! s = Some x ->
  windowed (fold_left (window_step ts (Z.of_nat (length ts)) ws mode)
                      (seqZ (Z.of_nat i) (Z.of_nat m + 1))
                      (WState out (Z.of_nat s) (floor_of ws x)))
  = out ++ map (emitted mode)
               (windows_from ws (take (i - s) (drop s ts)) (floor_of ws x)
                             (drop i ts)).
Proof.
  induction m as [|m IH]; intros i s out x Him Hsi Hx.
  - assert (i = length ts) by lia. subst i.
    rewrite drop_all. cbn [windows_from map seqZ].
    change (seqZ (Z.of_nat (length ts)) (Z.of_nat 0 + 1))
      with [Z.of_nat (length ts)].
    cbn [fold_left]. unfold window_step. cbn [current_window window_start windowed].
    rewrite Z.ltb_irrefl.
    pose proof Hfinal as Hfin. pose proof Hu64 as Hall.
    rewrite Forall_forall in Hfin, Hall.
    assert (Hin : x ∈ ts) by (apply list_elem_of_lookup; eauto).
    pose proof (Hfin x Hin) as Hfx. pose proof (Hall x Hin) as Hux.
    assert (0 <= floor_of ws x).
    { unfold floor_of, is_u64 in *. apply Z.mul_nonneg_nonneg; [|lia].
      apply Z.div_pos; lia. }
    unfold u64. rewrite Z.mod_small by lia.
    destruct (Z.gtb_spec (floor_of ws x + ws) (floor_of ws x)); [|lia].
    cbn [windowed]. f_equal. apply representative_window; auto; lia.
  - assert (Hi : (i < length ts)%nat) by lia.
    destruct (lookup_lt_is_Some_2 ts i Hi) as [t Ht].
    rewrite seqZ_cons by lia.
    replace (Z.succ (Z.of_nat i)) with (Z.of_nat (S i)) by lia.
    replace (Z.pred (Z.of_nat (S m) + 1)) with (Z.of_nat m + 1) by lia.
    cbn [fold_left]. unfold window_step at 2.
    cbn [current_window window_start windowed].
    destruct (Z.ltb_spec (Z.of_nat i) (Z.of_nat (length ts))) as [_|]; [|lia].
    assert (Hwf : window_floor (at_index ts (Z.of_nat i)) ws = floor_of ws t).
    { unfold at_index. rewrite Nat2Z.id, (nth_lookup_Some _ _ _ _ Ht).
      pose proof Hu64 as Hall. rewrite Forall_forall in Hall.
      apply window_floor_eq; [|assumption].
      apply Hall, list_elem_of_lookup. eauto. }
    rewrite !Hwf.
    rewrite (drop_S _ _ _ Ht). cbn [windows_from].
    assert (Hle : floor_of ws x <= floor_of ws t).
    { apply floor_of_mono; [assumption|].
      apply (sorted_lookup_le s i); [lia|assumption..]. }
    destruct (Z.gtb_spec (floor_of ws t) (floor_of ws x)) as [Hgt|Hngt].
    + destruct (Z.eqb_spec (floor_of ws t) (floor_of ws x)) as [E|_]; [lia|].
      rewrite (IH (S i) i _ t) by (assumption || lia).
      rewrite representative_window by (auto; lia).
      rewrite <- app_assoc. cbn [app map]. do 4 f_equal.
      replace (S i - i)%nat with 1%nat by lia.
      rewrite (drop_S _ _ _ Ht). reflexivity.
    + destruct (Z.eqb_spec (floor_of ws t) (floor_of ws x)) as [_|E]; [|lia].
      rewrite (IH (S i) s _ x) by (assumption || lia).
      do 3 f_equal.
      replace (S i - s)%nat with (S (i - s)) by lia.
      apply take_S_r. rewrite lookup_drop. rewrite <- Ht. f_equal. lia.
Qed.

(** On a sorted input whose window boundaries can be represented,
    apply_window stores exactly one value for each window the input spans,
    in the order of the windows. *)
Lemma apply_window_windows :
  apply_window ts ws mode = map (emitted mode) (windows ws ts).
Proof.
  unfold apply_window. cbv zeta.
  destruct (Nat.eq_dec (length ts) 0%nat) as [E0|Hne].
  - rewrite E0. apply nil_length_inv in E0. rewrite E0. reflexivity.
  - destruct (lookup_lt_is_Some_2 ts 0%nat ltac:(lia)) as [t0 Ht0].
    destruct (Z.eqb_spec (Z.of_nat (length ts)) 0) as [|_]; [lia|].
    destruct (Z.eqb_spec ws 0) as [|_]; [lia|]. cbn [orb].
    assert (Hwf : window_floor (at_index ts 0) ws = floor_of ws t0).
    { unfold at_index. change (Z.to_nat 0) with 0%nat.
      rewrite (nth_lookup_Some _ _ _ _ Ht0).
      apply window_floor_eq; [|assumption].
      pose proof Hu64 as Hall. rewrite Forall_forall in Hall.
      apply Hall, list_elem_of_lookup. eauto. }
    rewrite Hwf, (windows_head _ _ _ Ht0).
    pose proof (window_loop (length ts - 1)%nat 1%nat 0%nat [] t0
                  ltac:(lia) ltac:(lia) Ht0) as Hloop.
    change (Z.of_nat 1) with 1 in Hloop. change (Z.of_nat 0) with 0 in Hloop.
    replace (Z.of_nat (length ts - 1) + 1) with (Z.of_nat (length ts)) in Hloop
      by lia.
    rewrite Hloop. cbn [app]. do 2 f_equal.
    rewrite (drop_S _ _ _ Ht0). reflexivity.
Qed.

End Loop.

Lemma windows_from_concat ws : forall rest cur cf,
  concat (windows_from ws cur cf rest) = cur ++ rest.
Proof.
  induction rest as [|t rest IH]; intros cur cf; cbn [windows_from].
  - cbn. now rewrite app_nil_r.
  - destruct (floor_of ws t =? cf).
    + rewrite IH. now rewrite <- app_assoc.
    + cbn [concat]. now rewrite IH.
Qed.

(** No sample is lost, repeated or moved: the windows, one after the other,
    are the input. *)
Lemma windows_concat ws (samples : list Z) :
  concat (windows ws samples) = samples.
Proof.
  destruct samples as [|t rest]; [reflexivity|].
  unfold windows. now rewrite windows_from_concat.
Qed.

Lemma remove_dups_cons_in (x : Z) (l : list Z) :
  x ∈ l -> remove_dups (x :: l) = remove_dups l.
Proof.
  intros Hin. cbn [remove_dups].
  destruct (decide_rel elem_of x l); [reflexivity|contradiction].
Qed.

Lemma remove_dups_cons_notin (x : Z) (l : list Z) :
  x ∉ l -> remove_dups (x :: l) = x :: remove_dups l.
Proof.
  intros Hin. cbn [remove_dups].
  destruct (decide_rel elem_of x l); [contradiction|reflexivity].
Qed.

(** On a sorted input each new window has a floor not seen before. *)
Lemma windows_from_count ws : 0 < ws -> forall rest cur cf,
  StronglySorted Z.le rest ->
  Forall (fun t => cf <= floor_of ws t) rest ->
  length (windows_from ws cur cf rest)
  = length (remove_dups (cf :: map (floor_of ws) rest)).
Proof.
  intros Hws.
  induction rest as [|t rest IH]; intros cur cf Hss Hge; cbn [windows_from map].
  - rewrite remove_dups_cons_notin by (intros Hin; inversion Hin). reflexivity.
  - apply StronglySorted_inv in Hss as [Hss Hall].
    apply Forall_cons in Hge as [Hget Hge].
    assert (Hmono : Forall (fun u => floor_of ws t <= floor_of ws u) rest).
    { rewrite Forall_forall in Hall |- *. intros u Hu.
      apply floor_of_mono; [assumption|]. now apply Hall. }
    destruct (Z.eqb_spec (floor_of ws t) cf) as [E|E].
    + rewrite IH by assumption.
      rewrite (remove_dups_cons_in cf (floor_of ws t :: _))
        by (rewrite E; constructor).
      now rewrite E.
    + cbn [length]. rewrite IH by assumption.
      rewrite (remove_dups_cons_notin cf (floor_of ws t :: _)); [reflexivity|].
      intros Hin. apply elem_of_cons in Hin as [Hin|Hin]; [congruence|].
      apply list_elem_of_fmap in Hin as (u & -> & Hu).
      rewrite Forall_forall in Hmono. specialize (Hmono u Hu). lia.
Qed.

(** On a sorted input there are as many windows as distinct window floors. *)
Lemma windows_count ws (samples : list Z) :
  0 < ws -> Sorted Z.le samples ->
  length (windows ws samples) = distinct_floors ws samples.
Proof.
  intros Hws Hsorted. unfold distinct_floors.
  destruct samples as [|t rest]; [reflexivity|].
  apply Sorted_StronglySorted in Hsorted; [|intros x y z; apply Z.le_trans].
  apply StronglySorted_inv in Hsorted as [Hss Hall].
  unfold windows. rewrite windows_from_count; [reflexivity|assumption..|].
  rewrite Forall_forall in Hall |- *. intros u Hu.
  apply floor_of_mono; [assumption|]. now apply Hall.
Qed.

Lemma wrapped_sum_exact (w : list Z) : forall acc,
  Forall is_u64 w -> 0 <= acc -> acc + fold_right Z.add 0 w < 2 ^ 64 ->
  fold_left (fun sum t => u64 (sum + t)) w acc = acc + fold_right Z.add 0 w.
Proof.
  induction w as [|t w IH]; intros acc Hall Hacc Hsum; cbn [fold_left fold_right].
  - lia.
  - apply Forall_cons in Hall as [Ht Hall]. cbn [fold_right] in Hsum.
    assert (0 <= fold_right Z.add 0 w).
    { clear -Hall. induction Hall as [|x l Hx _ IHl]; cbn; [lia|].
      unfold is_u64 in Hx. lia. }
    unfold is_u64 in Ht. unfold u64 at 2. rewrite Z.mod_small by lia.
    rewrite IH by (assumption || lia). lia.
Qed.

(** Where the sum of a window fits in 64 bits, Mean mode stores the sum
    divided by the count. *)
Lemma emitted_mean (w : list Z) :
  Forall is_u64 w -> fold_right Z.add 0 w < 2 ^ 64 ->
  emitted 2 w = mean w.
Proof.
  intros Hall Hsum. unfold emitted, mean, wrapped_sum. cbn [Z.eqb Pos.eqb].
  now rewrite wrapped_sum_exact by (assumption || lia).
Qed.

(** What apply_window does on the inputs where no 64-bit operation wraps:
    sorted u64 samples, a positive window size, a window mode in {0,1,2},
    and window boundaries [floor + window_size] below 2^64. It stores one
    value per window, in order; the number of values is the number of
    distinct window floors; and in Mean mode a window whose sum fits in 64
    bits gives the sum divided by the count. *)
Theorem apply_window_without_wrap (ts : list Z) (ws mode : Z) :
  Forall is_u64 ts -> Sorted Z.le ts -> 0 < ws ->
  Z.of_nat (length ts) <= MAX_BUFFER ->
  mode = 0 \/ mode = 1 \/ mode = 2 ->
  Forall (fun t => floor_of ws t + ws < 2 ^ 64) ts ->
  apply_window ts ws mode = map (emitted mode) (windows ws ts)
  /\ concat (windows ws ts) = ts
  /\ length (apply_window ts ws mode) = distinct_floors ws ts
  /\ (forall w, w ∈ windows ws ts -> fold_right Z.add 0 w < 2 ^ 64 ->
        emitted 2 w = mean w).
Proof.
  intros Hu64 Hsorted Hws Hmax Hmode Hfinal.
  pose proof (apply_window_windows ts ws mode Hu64 Hsorted Hws Hmax Hmode Hfinal)
    as Heq.
  split; [exact Heq|]. split; [apply windows_concat|]. split.
  - rewrite Heq, length_map. now apply windows_count.
  - intros w Hw Hsum. apply emitted_mean; [|assumption].
    rewrite Forall_forall in Hu64 |- *. intros t Ht. apply Hu64.
    rewrite <- (windows_concat ws ts).
    apply list_elem_of_In, in_concat. exists w.
    split; now apply list_elem_of_In.
Qed.

Lemma apply_window_without_wrap_example :
  apply_window [5; 50; 110; 180; 205] 100 0 = [5; 110; 205]
  /\ windows 100 [5; 50; 110; 180; 205] = [[5; 50]; [110; 180]; [205]]
  /\ distinct_floors 100 [5; 50; 110; 180; 205] = 3%nat
  /\ apply_window [5; 50; 110; 180; 205] 100 2 = [27; 145; 205].
Proof. repeat split; vm_compute; reflexivity. Qed.

(** C5 (evaluation at the failing input): for the one-sample input
    [2^64 - 1] and window size 1 the window floor is 2^64 - 1, the synthetic
    boundary [current_window + window_size] wraps to 0, the test
    [next_window > current_window] fails and the only window is never
    emitted: no value for one distinct window floor. *)
Theorem C5_final_window_lost :
  Forall is_u64 [18446744073709551615]
  /\ Sorted Z.le [18446744073709551615]
  /\ distinct_floors 1 [18446744073709551615] = 1%nat
  /\ window_floor 18446744073709551615 1 = 18446744073709551615
  /\ u64 (18446744073709551615 + 1) = 0
  /\ apply_window [18446744073709551615] 1 0 = []
  /\ apply_window [18446744073709551615] 1 1 = []
  /\ apply_window [18446744073709551615] 1 2 = [].
Proof.
  split; [repeat constructor; vm_compute; congruence|].
  split; [repeat constructor|].
  repeat split; vm_compute; reflexivity.
Qed.

(** C8 (evaluation at the failing input): eleven nanosecond timestamps of
    November 2023 in one window of 10^18 ns. Their sum exceeds 2^64, the
    [uint64_t sum] wraps, and Mean mode emits 23023266026404403 where the
    sum divided by the count is 1700000000000000005. *)
Theorem C8_mean_sum_wraps :
  let timestamps := map (fun k => 1700000000000000000 + k) (seqZ 0 11) in
  Forall is_u64 timestamps
  /\ Sorted Z.le timestamps
  /\ windows 1000000000000000000 timestamps = [timestamps]
  /\ mean timestamps = 1700000000000000005
  /\ fold_right Z.add 0 timestamps = 18700000000000000055
  /\ wrapped_sum timestamps = 253255926290448439
  /\ apply_window timestamps 1000000000000000000 2 = [23023266026404403].
Proof.
  cbv zeta. split; [|split].
  - rewrite Forall_forall. intros x Hx.
    apply list_elem_of_In in Hx. vm_compute in Hx. unfold is_u64.
    change (2 ^ 64) with 18446744073709551616.
    repeat (destruct Hx as [<-|Hx]; [lia|]). contradiction.
  - vm_compute. repeat constructor; discriminate.
  - repeat split; vm_compute; reflexivity.
Qed.

End Window.

(** * Further properties of the code *)

(** ** rng-extractor.c and vomneu.c *)

Section ExtractorProperties.

Import Spec.

Lemma land_255_range x : 0 <= Z.land x 255 < 256.
Proof.
  change 255 with (Z.ones 8). rewrite Z.land_ones by lia.
  apply Z.mod_pos_bound. reflexivity.
Qed.

Lemma adjacent_xor_length (l : list Z) :
  length (adjacent_xor l) = (length l - 1)%nat.
Proof.
  induction l as [|a [|b l] IH]; [reflexivity..|].
  change (adjacent_xor (a :: b :: l))
    with (Z.land (Z.lxor a b) 255 :: adjacent_xor (b :: l)).
  cbn [length] in *. rewrite IH. lia.
Qed.

Lemma adjacent_xor_lookup (l : list Z) : forall (i : nat) a b,
  l !! i = Some a -> l !! S i = Some b ->
  adjacent_xor l !! i = Some (Z.land (Z.lxor a b) 255).
Proof.
  induction l as [|x [|y l] IH]; intros i a b Ha Hb; [discriminate..|].
  change (adjacent_xor (x :: y :: l))
    with (Z.land (Z.lxor x y) 255 :: adjacent_xor (y :: l)).
  destruct i as [|i].
  - cbn in Ha, Hb. injection Ha as <-. injection Hb as <-. reflexivity.
  - apply (IH i); assumption.
Qed.

Lemma xor_fold_loop_spec (ts : list Z) :
  ts <> [] -> Z.of_nat (length ts) <= MAX_BUFFER ->
  forall fuel (k : nat) out,
    (k <= length ts)%nat -> (length ts - k < fuel)%nat ->
    Extractor.xor_fold_loop fuel ts (Z.of_nat (length ts)) (Z.of_nat k) out
    = Ok (out ++ adjacent_xor (drop k ts)).
Proof.
  intros Hne Hmax.
  assert (Hpos : (0 < length ts)%nat) by (destruct ts; [congruence|cbn; lia]).
  induction fuel as [|fuel IH]; intros k out Hk Hfuel; [lia|].
  cbn [Extractor.xor_fold_loop].
  rewrite (size_t_small (Z.of_nat (length ts) - 1)) by lia.
  destruct (Z.ltb_spec (Z.of_nat k) (Z.of_nat (length ts) - 1)) as [Hlt|Hge].
  - destruct (lookup_lt_is_Some_2 ts k ltac:(lia)) as [a Ha].
    destruct (lookup_lt_is_Some_2 ts (S k) ltac:(lia)) as [b Hb].
    rewrite (read_lookup _ _ _ Ha). cbn [mbind result_bind].
    rewrite (size_t_small (Z.of_nat k + 1)) by lia.
    replace (Z.of_nat k + 1) with (Z.of_nat (S k)) by lia.
    rewrite (read_lookup _ _ _ Hb). cbn [mbind result_bind].
    rewrite IH by lia.
    rewrite (drop_S _ _ _ Ha), (drop_S _ _ _ Hb).
    change (adjacent_xor (a :: b :: drop (S (S k)) ts))
      with (Z.land (Z.lxor a b) 255 :: adjacent_xor (b :: drop (S (S k)) ts)).
    rewrite <- app_assoc. cbn [app]. do 3 f_equal.
    unfold u8. apply Z.mod_small. apply land_255_range.
  - assert (Hshort : (length (drop k ts) <= 1)%nat)
      by (rewrite length_drop; lia).
    destruct (drop k ts) as [|a [|b r]]; cbn in Hshort; [| |lia];
      cbn; now rewrite app_nil_r.
Qed.

Lemma xor_fold_adjacent (timestamps : list Z) :
  timestamps <> [] -> Z.of_nat (length timestamps) <= MAX_BUFFER ->
  Extractor.xor_fold timestamps = Ok (adjacent_xor timestamps).
Proof.
  intros Hne Hmax. unfold Extractor.xor_fold. cbv zeta.
  rewrite (xor_fold_loop_spec timestamps Hne Hmax _ 0%nat) by lia.
  now rewrite drop_0.
Qed.

(** xor_fold slides over the input one sample at a time: for [count >= 1]
    samples it returns [count - 1] bytes, and byte [i] is the low 8 bits of
    [timestamps[i] ^ timestamps[i + 1]]. *)
Theorem xor_fold_sliding (timestamps : list Z)
    (Hne : timestamps <> [])
    (Hmax : Z.of_nat (length timestamps) <= MAX_BUFFER) :
  exists out,
    Extractor.xor_fold timestamps = Ok out
    /\ length out = (length timestamps - 1)%nat
    /\ (forall (i : nat) a b,
          timestamps !! i = Some a -> timestamps !! S i = Some b ->
          out !! i = Some (Z.lxor a b mod 256))
    /\ Forall (fun byte => 0 <= byte < 256) out.
Proof.
  exists (adjacent_xor timestamps). split.
  - now apply xor_fold_adjacent.
  - split; [apply adjacent_xor_length|]. split.
    + intros i a b Ha Hb. rewrite (adjacent_xor_lookup _ _ _ _ Ha Hb).
      f_equal. change 255 with (Z.ones 8). now rewrite Z.land_ones by lia.
    + clear. induction timestamps as [|a [|b l] IH]; [constructor..|].
      change (adjacent_xor (a :: b :: l))
        with (Z.land (Z.lxor a b) 255 :: adjacent_xor (b :: l)).
      constructor; [apply land_255_range|exact IH].
Qed.

Lemma xor_fold_sliding_witness :
  [5; 3; 258] <> [] /\ Z.of_nat (length [5; 3; 258]) <= MAX_BUFFER
  /\ exists out, Extractor.xor_fold [5; 3; 258] = Ok out
                 /\ length out = 2%nat.
Proof.
  assert (Hne : [5; 3; 258] <> []) by discriminate.
  assert (Hmax : Z.of_nat (length [5; 3; 258]) <= MAX_BUFFER)
    by (vm_compute; discriminate).
  destruct (xor_fold_sliding [5; 3; 258] Hne Hmax) as (out & E & Hlen & _).
  exact (conj Hne (conj Hmax (ex_intro _ out (conj E Hlen)))).
Defined.

(** Bit [k] of a bit stream is found in byte [k / 8] of its packing, at
    bit position [7 - k mod 8]. *)
Lemma pack_testbit (bits : BitStream) (k : nat) b :
  bits !! k = Some b ->
  exists byte,
    pack bits !! (k / 8)%nat = Some byte
    /\ Z.testbit byte (7 - Z.of_nat (k mod 8)) = b.
Proof.
  intros Hk.
  assert (Hlt : (k < length bits)%nat) by (apply lookup_lt_is_Some; eauto).
  pose proof (Nat.div_mod_eq k 8) as Hdm.
  pose proof (Nat.mod_upper_bound k 8 ltac:(lia)) as Hr.
  exists (byte_of_group (group bits (k / 8))). split.
  - unfold pack. rewrite list_lookup_fmap.
    rewrite lookup_seq_lt; [reflexivity|].
    apply Nat.Div0.div_lt_upper_bound.
    pose proof (Nat.div_mod_eq (length bits + 7) 8).
    pose proof (Nat.mod_upper_bound (length bits + 7) 8 ltac:(lia)). lia.
  - apply byte_of_group_testbit.
    + unfold group. rewrite length_take. lia.
    + unfold group, BitStream in *. rewrite lookup_take_lt by lia.
      rewrite lookup_drop. rewrite <- Hk. f_equal. lia.
Qed.

Lemma length_pack (bits : BitStream) :
  length (pack bits) = ((length bits + 7) / 8)%nat.
Proof. unfold pack. now rewrite length_map, length_seq. Qed.

Lemma LsbExtract_lookup pos (values : list Z) (k : nat) v :
  0 <= pos -> values !! k = Some v ->
  LsbExtract pos values !! k = Some (Z.testbit v pos).
Proof.
  intros Hpos Hk. unfold LsbExtract, BitStream.
  rewrite list_lookup_fmap, Hk. cbn. f_equal.
  rewrite <- Z.bit0_odd, Z.shiftr_spec by lia. reflexivity.
Qed.

(** extract_lsbs takes bit [bit_pos] of every value and packs the bits
    MSB-first: it returns [ceil(count / 8)] bytes, and bit [bit_pos] of
    [values[k]] is bit [7 - k mod 8] of byte [k / 8]. *)
Theorem extract_lsbs_bits (values : list Z) (bit_pos : Z)
    (Hpos : 0 <= bit_pos < 64)
    (Hmax : Z.of_nat (length values) <= MAX_BUFFER) :
  exists out,
    Extractor.extract_lsbs values bit_pos = Ok out
    /\ length out = ((length values + 7) / 8)%nat
    /\ (forall (k : nat) v, values !! k = Some v ->
          exists byte,
            out !! (k / 8)%nat = Some byte
            /\ Z.testbit byte (7 - Z.of_nat (k mod 8)) = Z.testbit v bit_pos).
Proof.
  exists (pack (LsbExtract bit_pos values)).
  split; [now apply extract_lsbs_pack|]. split.
  - rewrite length_pack. unfold LsbExtract. now rewrite length_map.
  - intros k v Hk. apply pack_testbit.
    apply LsbExtract_lookup; [lia|assumption].
Qed.

Lemma extract_lsbs_bits_witness :
  0 <= 1 < 64 /\ Z.of_nat (length [2; 0; 3]) <= MAX_BUFFER
  /\ exists out, Extractor.extract_lsbs [2; 0; 3] 1 = Ok out
                 /\ length out = 1%nat.
Proof.
  assert (Hpos : 0 <= 1 < 64) by lia.
  assert (Hmax : Z.of_nat (length [2; 0; 3]) <= MAX_BUFFER)
    by (vm_compute; discriminate).
  destruct (extract_lsbs_bits [2; 0; 3] 1 Hpos Hmax) as (out & E & Hlen & _).
  exact (conj Hpos (conj Hmax (ex_intro _ out (conj E Hlen)))).
Defined.

Lemma VonNeumann_length (bits : list bool) :
  (length (VonNeumann bits) <= length bits / 2)%nat.
Proof.
  induction bits as [| a | a b r IH] using list_pair_ind;
    [cbn; lia..|].
  cbn [VonNeumann length].
  replace (S (S (length r))) with (1 * 2 + length r)%nat by lia.
  rewrite Nat.div_add_l by lia.
  destruct (bool_decide (a = b)); cbn [length]; lia.
Qed.

Lemma VonNeumann_constant (bits : list bool) b :
  Forall (eq b) bits -> VonNeumann bits = [].
Proof.
  induction bits as [| a | a0 a1 r IH] using list_pair_ind; intros Hall;
    [reflexivity..|].
  apply Forall_cons in Hall as [<- Hall].
  apply Forall_cons in Hall as [<- Hall].
  cbn [VonNeumann]. rewrite bool_decide_true by reflexivity. now apply IH.
Qed.

Lemma VonNeumann_negb (bits : list bool) :
  VonNeumann (map negb bits) = map negb (VonNeumann bits).
Proof.
  induction bits as [| a | a b r IH] using list_pair_ind; [reflexivity..|].
  cbn [map VonNeumann]. rewrite IH. destruct a, b; reflexivity.
Qed.

(** von_neumann_extract on single bits: of every disjoint pair (a,b) it
    emits a when a != b and nothing when a == b, and packs the emitted bits
    MSB-first. At most one bit per pair comes out, and an input whose bits
    are all equal gives no output at all. *)
Theorem von_neumann_rule (bits : list bool)
    (Hne : bits <> [])
    (Hmax : Z.of_nat (length bits) <= MAX_BUFFER) :
  Extractor.von_neumann_extract (map Z.b2z bits) = Ok (pack (VonNeumann bits))
  /\ (length (VonNeumann bits) <= length bits / 2)%nat
  /\ (forall b, Forall (eq b) bits ->
        Extractor.von_neumann_extract (map Z.b2z bits) = Ok []).
Proof.
  split; [now apply von_neumann_pack|].
  split; [apply VonNeumann_length|].
  intros b Hall. rewrite von_neumann_pack by assumption.
  now rewrite (VonNeumann_constant bits b Hall).
Qed.

Lemma von_neumann_rule_witness :
  [false; true; true; false; true; true; false; false] <> []
  /\ Z.of_nat (length [false; true; true; false; true; true; false; false])
     <= MAX_BUFFER
  /\ Extractor.von_neumann_extract
       (map Z.b2z [false; true; true; false; true; true; false; false])
     = Ok (pack (VonNeumann
                   [false; true; true; false; true; true; false; false])).
Proof.
  assert (Hne : [false; true; true; false; true; true; false; false] <> [])
    by discriminate.
  assert (Hmax :
    Z.of_nat (length [false; true; true; false; true; true; false; false])
    <= MAX_BUFFER) by (vm_compute; discriminate).
  exact (conj Hne (conj Hmax (proj1 (von_neumann_rule _ Hne Hmax)))).
Defined.

(** The symmetry behind the debiasing: complementing every input bit
    complements every bit von_neumann_extract emits and leaves their number
    unchanged. *)
Theorem von_neumann_complement (bits : list bool)
    (Hne : bits <> [])
    (Hmax : Z.of_nat (length bits) <= MAX_BUFFER) :
  Extractor.von_neumann_extract (map Z.b2z (map negb bits))
  = Ok (pack (map negb (VonNeumann bits)))
  /\ Extractor.von_neumann_extract (map Z.b2z bits)
     = Ok (pack (VonNeumann bits))
  /\ length (map negb (VonNeumann bits)) = length (VonNeumann bits).
Proof.
  split; [|split; [now apply von_neumann_pack|apply length_map]].
  rewrite von_neumann_pack.
  - now rewrite VonNeumann_negb.
  - destruct bits; [congruence|discriminate].
  - now rewrite length_map.
Qed.

Lemma von_neumann_complement_witness :
  [false; true; true; true] <> []
  /\ Z.of_nat (length [false; true; true; true]) <= MAX_BUFFER
  /\ Extractor.von_neumann_extract
       (map Z.b2z (map negb [false; true; true; true]))
     = Ok (pack (map negb (VonNeumann [false; true; true; true]))).
Proof.
  assert (Hne : [false; true; true; true] <> []) by discriminate.
  assert (Hmax : Z.of_nat (length [false; true; true; true]) <= MAX_BUFFER)
    by (vm_compute; discriminate).
  exact (conj Hne (conj Hmax (proj1 (von_neumann_complement _ Hne Hmax)))).
Defined.

Lemma extract_lsbs_shift_fault (values : list Z) bit_pos :
  values <> [] -> ~ (0 <= bit_pos < 64) ->
  Extractor.extract_lsbs values bit_pos = Fault ShiftRange.
Proof.
  intros Hne Hpos. destruct values as [|v values]; [congruence|].
  unfold Extractor.extract_lsbs. cbv zeta.
  cbn [Extractor.extract_lsbs_loop length].
  destruct (Z.ltb_spec 0 (Z.of_nat (S (length values)))) as [_|]; [|lia].
  unfold read. cbn [Z.to_nat lookup list_lookup mbind result_bind].
  unfold Extractor.shr64.
  destruct (Z.leb_spec 0 bit_pos); destruct (Z.ltb_spec bit_pos 64);
    try reflexivity.
  lia.
Qed.

Lemma pack_length_le (bits : BitStream) (n : nat) :
  (length bits <= n)%nat -> (0 < n)%nat -> (length (pack bits) <= n)%nat.
Proof.
  intros Hle Hn. rewrite length_pack.
  pose proof (Nat.div_mod_eq (length bits + 7) 8).
  pose proof (Nat.mod_upper_bound (length bits + 7) 8 ltac:(lia)). lia.
Qed.

(** The outcome of the extractor program on [count >= 1] values. Methods
    0, 1 and 2, and method 3 with a bit position inside the value, end with
    status 0 and write at most [count] bytes (the output buffer has
    [count + 1]); method 3 with any other bit position shifts by an
    undefined amount; every other method number ends with status 1 and
    writes nothing. *)
Theorem main_outcome (method bit_pos : Z) (values : list Z)
    (Hne : values <> [])
    (Hmax : Z.of_nat (length values) <= MAX_BUFFER) :
  (method = 0 \/ method = 1 \/ method = 2
   \/ (method = 3 /\ 0 <= bit_pos < 64) ->
   exists written,
     Extractor.main method bit_pos values = Extractor.Exit 0 written
     /\ (length written <= length values)%nat)
  /\ (method = 3 -> ~ (0 <= bit_pos < 64) ->
      Extractor.main method bit_pos values = Extractor.Undefined ShiftRange)
  /\ (method <> 0 -> method <> 1 -> method <> 2 -> method <> 3 ->
      Extractor.main method bit_pos values = Extractor.Exit 1 []).
Proof.
  assert (Hpos : (0 < length values)%nat)
    by (destruct values; [congruence|cbn; lia]).
  assert (Hcount : (Z.of_nat (length values) =? 0) = false)
    by (apply Z.eqb_neq; lia).
  destruct (main_runs values bit_pos Hne Hmax) as (H0 & H1 & H3).
  split; [|split].
  - intros [->|[->|[->|[-> Hbit]]]].
    + eexists. split; [exact H0|].
      apply pack_length_le; [|assumption].
      rewrite IntervalCompare_length.
      apply Nat.Div0.div_le_upper_bound. lia.
    + eexists. split; [exact H1|].
      apply pack_length_le; [|assumption].
      pose proof (VonNeumann_length (map Z.odd values)) as Hvn.
      rewrite length_map in Hvn.
      pose proof (Nat.Div0.div_le_upper_bound (length values) 2 (length values)
                    ltac:(lia)). lia.
    + exists (adjacent_xor values). split; [|rewrite adjacent_xor_length; lia].
      unfold Extractor.main. cbv zeta. rewrite Hcount. cbn [Z.eqb Pos.eqb].
      now rewrite xor_fold_adjacent.
    + eexists. split; [exact (H3 Hbit)|].
      apply pack_length_le; [|assumption].
      unfold LsbExtract. now rewrite length_map.
  - intros -> Hbit. unfold Extractor.main. cbv zeta.
    rewrite Hcount. cbn [Z.eqb Pos.eqb].
    now rewrite extract_lsbs_shift_fault.
  - intros N0 N1 N2 N3. unfold Extractor.main. cbv zeta. rewrite Hcount.
    destruct (Z.eqb_spec method 0); [contradiction|].
    destruct (Z.eqb_spec method 1); [contradiction|].
    destruct (Z.eqb_spec method 2); [contradiction|].
    destruct (Z.eqb_spec method 3); [contradiction|]. reflexivity.
Qed.

Lemma main_outcome_witness :
  [10; 5; 3; 8; 7; 7] <> []
  /\ Z.of_nat (length [10; 5; 3; 8; 7; 7]) <= MAX_BUFFER
  /\ Extractor.main 3 64 [10; 5; 3; 8; 7; 7] = Extractor.Undefined ShiftRange.
Proof.
  assert (Hne : [10; 5; 3; 8; 7; 7] <> []) by discriminate.
  assert (Hmax : Z.of_nat (length [10; 5; 3; 8; 7; 7]) <= MAX_BUFFER)
    by (vm_compute; discriminate).
  refine (conj Hne (conj Hmax
           (proj1 (proj2 (main_outcome 3 64 _ Hne Hmax)) eq_refl _))).
  lia.
Defined.

Lemma push_bits_taken st v :
  0 <= out_bit_pos st < 8 ->
  bits_taken (push st v) = bits_taken st + 1
  /\ 0 <= out_bit_pos (push st v) < 8.
Proof.
  intros Hpos. unfold push, bits_taken.
  destruct (Z.eqb_spec (out_bit_pos st + 1) 8) as [E|E];
    cbn [output out_bit_pos].
  - rewrite length_app. cbn [length]. lia.
  - lia.
Qed.

Lemma fold_pairs_vn_taken (l : list Z) : forall st,
  0 <= out_bit_pos st < 8 ->
  0 <= out_bit_pos (fold_pairs vn_body st l) < 8
  /\ bits_taken (fold_pairs vn_body st l)
     <= bits_taken st + Z.of_nat (length l / 2).
Proof.
  induction l as [| a | a b r IH] using list_pair_ind; intros st Hpos;
    [cbn; lia..|].
  cbn [fold_pairs length].
  replace (S (S (length r))) with (1 * 2 + length r)%nat by lia.
  rewrite Nat.div_add_l by lia.
  change (vn_body st a b) with (if negb (a =? b) then push st a else st).
  destruct (negb (a =? b)).
  - destruct (push_bits_taken st a Hpos) as [Ht Hp].
    destruct (IH (push st a) Hp) as [Hp' Ht']. lia.
  - destruct (IH st Hpos) as [Hp' Ht']. lia.
Qed.

Lemma debias_bits_output (input : list Z) :
  input <> [] -> Z.of_nat (length input) <= MAX_BUFFER ->
  Vomneu.debias_bits input = Ok (output (fold_pairs vn_body packer_init input))
  /\ (16 * length (output (fold_pairs vn_body packer_init input))
      <= length input)%nat.
Proof.
  intros Hne Hmax. split.
  - unfold Vomneu.debias_bits. cbv zeta.
    now rewrite debias_loop_eq, pair_loop_total by assumption.
  - destruct (fold_pairs_vn_taken input packer_init ltac:(cbn; lia))
      as [Hp Ht].
    unfold bits_taken in Ht. cbn [packer_init output out_bit_pos length] in Ht.
    pose proof (Nat.div_mod_eq (length input) 2).
    pose proof (Nat.mod_upper_bound (length input) 2 ltac:(lia)). lia.
Qed.

(** The two Von Neumann debiasers agree on the complete bytes: for any
    byte values, what debias_bits returns is what von_neumann_extract
    returns without its (at most one) final padded byte, and it holds at
    most one byte for every 16 input samples. *)
Theorem debias_bits_prefix (input : list Z)
    (Hne : input <> [])
    (Hmax : Z.of_nat (length input) <= MAX_BUFFER) :
  exists complete tail,
    Vomneu.debias_bits input = Ok complete
    /\ Extractor.von_neumann_extract input = Ok (complete ++ tail)
    /\ (length tail <= 1)%nat
    /\ (16 * length complete <= length input)%nat.
Proof.
  destruct (debias_bits_output input Hne Hmax) as [Hd Hlen].
  set (st := fold_pairs vn_body packer_init input) in *.
  exists (output st),
    (if out_bit_pos st >? 0
     then [u8 (Z.shiftl (current_byte st) (8 - out_bit_pos st))] else []).
  split; [exact Hd|]. split; [|split].
  - rewrite von_neumann_fold by assumption. fold st. unfold flush.
    destruct (out_bit_pos st >? 0); [reflexivity|now rewrite app_nil_r].
  - destruct (out_bit_pos st >? 0); cbn; lia.
  - exact Hlen.
Qed.

Lemma debias_bits_prefix_witness :
  [0; 1; 1; 0] <> [] /\ Z.of_nat (length [0; 1; 1; 0]) <= MAX_BUFFER
  /\ exists complete tail,
       Vomneu.debias_bits [0; 1; 1; 0] = Ok complete
       /\ Extractor.von_neumann_extract [0; 1; 1; 0] = Ok (complete ++ tail).
Proof.
  assert (Hne : [0; 1; 1; 0] <> []) by discriminate.
  assert (Hmax : Z.of_nat (length [0; 1; 1; 0]) <= MAX_BUFFER)
    by (vm_compute; discriminate).
  destruct (debias_bits_prefix [0; 1; 1; 0] Hne Hmax)
    as (complete & tail & Hd & Hv & _).
  exact (conj Hne (conj Hmax
           (ex_intro _ complete (ex_intro _ tail (conj Hd Hv))))).
Defined.

End ExtractorProperties.

Section VomneuProperties.

Import Gpio VomneuMain.

Lemma collect_length (events : list wait_result) : forall last_time raw_bits bits,
  Z.of_nat (length raw_bits) <= SAMPLE_SIZE ->
  collect last_time raw_bits events = Some bits ->
  Z.of_nat (length bits) = SAMPLE_SIZE.
Proof.
  induction events as [|ev events IH]; intros last_time raw_bits bits Hlen Hc.
  - cbn [collect] in Hc.
    destruct (Z.ltb_spec (Z.of_nat (length raw_bits)) SAMPLE_SIZE);
      cbn [negb] in Hc; [discriminate|]. injection Hc as <-. lia.
  - cbn [collect] in Hc.
    destruct (Z.ltb_spec (Z.of_nat (length raw_bits)) SAMPLE_SIZE) as [Hlt|Hge];
      cbn [negb] in Hc; [|injection Hc as <-; lia].
    destruct ev as [ts| |errno]; [|now apply IH in Hc..].
    destruct (negb (tv_sec last_time =? 0)); apply IH in Hc; try assumption.
    rewrite length_app. cbn [length]. lia.
Qed.

(** Whenever the collection loop of vomneu.c ends, debias_bits runs without
    any out-of-range access and returns at most 62 bytes, well inside the
    [SAMPLE_SIZE / 4 = 250] entries of [debiased_bits]. *)
Theorem vomneu_main_fits (events : list wait_result) (r : result (list Z))
    (Hdone : main events = Some r) :
  exists out,
    r = Ok out
    /\ Z.of_nat (length out) <= 62
    /\ 62 < SAMPLE_SIZE / 4.
Proof.
  unfold main in Hdone.
  destruct (collect (Timespec 0 0) [] events) as [raw_bits|] eqn:Hc;
    [|discriminate].
  cbn in Hdone. injection Hdone as <-.
  apply collect_length in Hc; [|cbn; unfold SAMPLE_SIZE; lia].
  unfold SAMPLE_SIZE in *.
  assert (Hne : raw_bits <> []) by (intros ->; cbn in Hc; lia).
  assert (Hmax : Z.of_nat (length raw_bits) <= MAX_BUFFER)
    by (unfold MAX_BUFFER; lia).
  destruct (debias_bits_output raw_bits Hne Hmax) as [Hd Hlen].
  eexists. split; [exact Hd|]. split; [lia|reflexivity].
Qed.

Lemma vomneu_main_fits_witness :
  main (map (fun k => Edge (Timespec 1 k)) (seqZ 0 1001)) = Some (Ok [])
  /\ exists out : list Z,
       Ok [] = Ok out /\ Z.of_nat (length out) <= 62
       /\ 62 < SAMPLE_SIZE / 4.
Proof.
  assert (Hdone : main (map (fun k => Edge (Timespec 1 k)) (seqZ 0 1001))
                  = Some (Ok [])) by (vm_compute; reflexivity).
  exact (conj Hdone (vomneu_main_fits _ _ Hdone)).
Defined.

End VomneuProperties.

(** ** filter.c *)

Section FilterProperties.

Import Filter.

Lemma window_step_length ts count ws mode st i :
  (length (windowed (window_step ts count ws mode st i))
   <= S (length (windowed st)))%nat.
Proof.
  unfold window_step.
  destruct (_ >? _); [|lia]. cbn [windowed].
  rewrite length_app. unfold representative.
  destruct (mode =? 0); [cbn; lia|].
  destruct (mode =? 1); [cbn; lia|].
  destruct (mode =? 2); cbn; lia.
Qed.

Lemma window_fold_length ts count ws mode (idxs : list Z) : forall st,
  (length (windowed (fold_left (window_step ts count ws mode) idxs st))
   <= length (windowed st) + length idxs)%nat.
Proof.
  induction idxs as [|i idxs IH]; intros st; cbn [fold_left length]; [lia|].
  specialize (IH (window_step ts count ws mode st i)).
  pose proof (window_step_length ts count ws mode st i). lia.
Qed.

Lemma apply_window_length_le (timestamps : list Z) ws mode :
  (length (apply_window timestamps ws mode) <= length timestamps)%nat.
Proof.
  unfold apply_window. cbv zeta.
  destruct (_ || _); [cbn; lia|].
  etransitivity; [apply window_fold_length|].
  cbn [windowed length]. rewrite length_seqZ. lia.
Qed.

(** Neither filter writes past its result array of [count] entries, for
    any input, threshold, window size and mode: apply_dead_time keeps at
    most [count] samples, and at least one when [count >= 1]; apply_window
    stores at most [count] values. *)
Theorem filter_results_fit (timestamps : list Z) (dead_time ws mode : Z) :
  (Nat.min 1 (length timestamps)
   <= length (apply_dead_time timestamps dead_time) <= length timestamps)%nat
  /\ (length (apply_window timestamps ws mode) <= length timestamps)%nat.
Proof.
  split.
  - destruct timestamps as [|t0 rest]; [cbn; lia|]. cbn [apply_dead_time].
    destruct (dead_time_loop_kept rest dead_time [t0]) as (kept & -> & Hsub).
    apply sublist_length in Hsub. cbn [app length]. lia.
  - apply apply_window_length_le.
Qed.

Lemma dead_time_loop_max rest dead_time : forall filtered,
  2 ^ 64 - 1 <= dead_time ->
  dead_time_loop rest dead_time filtered = filtered.
Proof.
  induction rest as [|t rest IH]; intros filtered Hd; [reflexivity|].
  cbn [dead_time_loop].
  pose proof (Z.mod_pos_bound (t - List.last filtered 0) (2 ^ 64) eq_refl).
  destruct (Z.gtb_spec (u64 (t - List.last filtered 0)) dead_time) as [Hgt|_].
  - unfold u64 in Hgt. lia.
  - now apply IH.
Qed.

(** A dead time of [UINT64_MAX] (or more) keeps the first sample only,
    whatever the samples are. *)
Theorem dead_time_max_keeps_first (t0 : Z) (rest : list Z) (dead_time : Z)
    (Hd : 2 ^ 64 - 1 <= dead_time) :
  apply_dead_time (t0 :: rest) dead_time = [t0].
Proof. cbn [apply_dead_time]. now apply dead_time_loop_max. Qed.

Lemma dead_time_max_keeps_first_witness :
  2 ^ 64 - 1 <= 18446744073709551615
  /\ apply_dead_time [7; 8; 0; 18446744073709551615] 18446744073709551615
     = [7].
Proof.
  assert (Hd : 2 ^ 64 - 1 <= 18446744073709551615) by (vm_compute; discriminate).
  exact (conj Hd (dead_time_max_keeps_first 7 _ _ Hd)).
Defined.

End FilterProperties.

Section FilterMainProperties.

Import Filter FilterMain.

Lemma intervals_length (l : list Z) :
  length (intervals l) = (length l - 1)%nat.
Proof.
  induction l as [|a [|b l] IH]; [reflexivity..|].
  change (intervals (a :: b :: l)) with (u64 (b - a) :: intervals (b :: l)).
  cbn [length] in *. rewrite IH. lia.
Qed.

Lemma intervals_chain dead_time (l : list Z) :
  chain (spaced dead_time) l ->
  Forall (fun x => dead_time < x < 2 ^ 64) (intervals l).
Proof.
  induction l as [|a [|b l] IH]; intros Hc; [constructor..|].
  change (intervals (a :: b :: l)) with (u64 (b - a) :: intervals (b :: l)).
  destruct Hc as [Hab Hc]. constructor; [|now apply IH].
  unfold spaced in Hab.
  pose proof (Z.mod_pos_bound (b - a) (2 ^ 64) eq_refl). unfold u64 in *. lia.
Qed.

Lemma intervals_telescope (l : list Z) :
  u64 (fold_right Z.add 0 (intervals l)) = u64 (List.last l 0 - hd 0 l).
Proof.
  induction l as [|a [|b l] IH]; [reflexivity| |].
  - cbn. f_equal. lia.
  - change (intervals (a :: b :: l)) with (u64 (b - a) :: intervals (b :: l)).
    change (List.last (a :: b :: l) 0) with (List.last (b :: l) 0).
    cbn [fold_right hd] in *. unfold u64 in *.
    rewrite Z.add_mod_idemp_l by discriminate.
    rewrite <- Z.add_mod_idemp_r, IH, Z.add_mod_idemp_r by discriminate.
    f_equal. lia.
Qed.

(** The two output modes of the filter program agree: in interval mode it
    prints, for the timestamps it would print in timestamp mode, the
    difference of every two neighbours, so one line less, and the printed
    intervals add up (in 64 bits) to the span from the first to the last
    of those timestamps. *)
Theorem main_interval_mode (opts : transform_options) (lines : list Z)
    (Hmode : output_mode opts <> 0) :
  let result :=
    main (Options (dead_time_ns opts) (window_size_ns opts)
                  (window_mode opts) 0) lines in
  main opts lines = intervals result
  /\ length (main opts lines) = (length result - 1)%nat
  /\ u64 (fold_right Z.add 0 (main opts lines))
     = u64 (List.last result 0 - hd 0 result).
Proof.
  cbv zeta.
  assert (E : main opts lines
              = intervals (main (Options (dead_time_ns opts)
                                   (window_size_ns opts) (window_mode opts) 0)
                                lines)).
  { unfold main. cbn [dead_time_ns window_size_ns window_mode output_mode].
    destruct (Z.eqb_spec (output_mode opts) 0); [contradiction|]. reflexivity. }
  rewrite E. split; [reflexivity|].
  split; [apply intervals_length|apply intervals_telescope].
Qed.

Lemma main_interval_mode_witness :
  output_mode (Options 100 0 0 1) <> 0
  /\ main (Options 100 0 0 1) [0; 50; 150; 151; 400] = [150; 250].
Proof.
  assert (Hmode : output_mode (Options 100 0 0 1) <> 0) by discriminate.
  exact (conj Hmode
           (proj1 (main_interval_mode (Options 100 0 0 1)
                     [0; 50; 150; 151; 400] Hmode))).
Defined.

(** With the dead-time filter on, the window reduction off and interval
    output, every interval the filter program prints is strictly greater
    than the dead time, for any input (sorted or not): the printed
    difference is the very quantity the filter tested. *)
Theorem main_intervals_exceed_dead_time (opts : transform_options)
    (lines : list Z)
    (Hdead : dead_time_ns opts > 0)
    (Hwin : window_size_ns opts = 0)
    (Hmode : output_mode opts <> 0) :
  Forall (fun x => dead_time_ns opts < x < 2 ^ 64) (main opts lines).
Proof.
  unfold main.
  destruct (Z.gtb_spec (dead_time_ns opts) 0); [|lia].
  rewrite Hwin. cbn [Z.gtb Z.compare].
  destruct (Z.eqb_spec (output_mode opts) 0); [contradiction|].
  apply intervals_chain, apply_dead_time_chain.
Qed.

Lemma main_intervals_exceed_dead_time_witness :
  dead_time_ns (Options 100 0 0 1) > 0
  /\ window_size_ns (Options 100 0 0 1) = 0
  /\ output_mode (Options 100 0 0 1) <> 0
  /\ Forall (fun x => 100 < x < 2 ^ 64)
            (main (Options 100 0 0 1) [0; 50; 150; 151; 400]).
Proof.
  assert (Hdead : dead_time_ns (Options 100 0 0 1) > 0) by reflexivity.
  assert (Hwin : window_size_ns (Options 100 0 0 1) = 0) by reflexivity.
  assert (Hmode : output_mode (Options 100 0 0 1) <> 0) by discriminate.
  exact (conj Hdead (conj Hwin (conj Hmode
           (main_intervals_exceed_dead_time (Options 100 0 0 1)
              [0; 50; 150; 151; 400] Hdead Hwin Hmode)))).
Defined.

End FilterMainProperties.

(** ** xor-groups.c *)

Section XorGroupsProperties.

Import XorGroups.











End XorGroupsProperties.

(** ** trng/trng.c and testing/trng.c: the producer and the consumer *)

Section ProducerProperties.

Import Gpio TrngRun.

Lemma u64_idemp x : u64 (u64 x) = u64 x.
Proof. unfold u64. apply Z.mod_mod. discriminate. Qed.

(** The delta is the 64-bit difference of the two timestamps, whatever the
    fields of the two events are. *)
Lemma delta_ns_timestamps last_time ev :
  delta_ns last_time ev = u64 (timestamp_ns ev - timestamp_ns last_time).
Proof.
  unfold delta_ns, timestamp_ns, u64.
  rewrite !Z.mul_mod_idemp_l, !Z.add_mod_idemp_l, !Z.add_mod_idemp_r
    by discriminate.
  rewrite Zminus_mod_idemp_l, Zminus_mod_idemp_r.
  f_equal. lia.
Qed.

Lemma packets_sent_some line p (out : list emission) :
  packets_sent ((line, Some p) :: out) = p :: packets_sent out.
Proof. reflexivity. Qed.

Lemma packets_sent_none line (out : list emission) :
  packets_sent ((line, None) :: out) = packets_sent out.
Proof. reflexivity. Qed.

Lemma stdout_lines_cons line o (out : list emission) :
  stdout_lines ((line, o) :: out) = line :: stdout_lines out.
Proof. reflexivity. Qed.

Lemma gpio_loop_lines (events : list wait_result) : forall last_time s s',
  stdout_lines (gpio_loop true last_time s events)
  = stdout_lines (gpio_loop false last_time s' events).
Proof.
  induction events as [|[ts| |errno] events IH]; intros last_time s s';
    cbn [gpio_loop]; [reflexivity| | |].
  - destruct (negb (tv_sec last_time =? 0)); [|apply IH].
    rewrite !stdout_lines_cons. f_equal. apply IH.
  - apply IH.
  - destruct (negb (errno =? Trng.EINTR)); [reflexivity|apply IH].
Qed.

Lemma gpio_loop_local_sends_nothing (events : list wait_result) :
  forall last_time s, packets_sent (gpio_loop false last_time s events) = [].
Proof.
  induction events as [|[ts| |errno] events IH]; intros last_time s;
    cbn [gpio_loop]; [reflexivity| | |].
  - destruct (negb (tv_sec last_time =? 0)); [|apply IH].
    rewrite packets_sent_none. apply IH.
  - apply IH.
  - destruct (negb (errno =? Trng.EINTR)); [reflexivity|apply IH].
Qed.

Lemma gpio_loop_packets (events : list wait_result) : forall last_time s,
  0 <= s < 2 ^ 32 ->
  let out := gpio_loop true last_time s events in
  map Trng.sequence (packets_sent out)
  = map (fun k => u32 (s + k)) (seqZ 0 (Z.of_nat (length (packets_sent out))))
  /\ map (fun p => as_long (Trng.delta_ns p)) (packets_sent out) = stdout_lines out
  /\ Forall Trng.valid_packet (packets_sent out).
Proof.
  induction events as [|[ts| |errno] events IH]; intros last_time s Hs;
    cbn [gpio_loop]; cbv zeta.
  - repeat split. constructor.
  - destruct (negb (tv_sec last_time =? 0)); [|now apply IH].
    assert (Hs' : 0 <= u32 (s + 1) < 2 ^ 32)
      by (apply Z.mod_pos_bound; reflexivity).
    destruct (IH ts (u32 (s + 1)) Hs') as (Hseq & Hdelta & Hvalid).
    rewrite packets_sent_some, stdout_lines_cons.
    set (rest := packets_sent (gpio_loop true ts (u32 (s + 1)) events)) in *.
    cbn [length map Trng.sequence Trng.delta_ns].
    split; [|split].
    + rewrite seqZ_cons by lia. cbn [map]. f_equal.
      * rewrite Z.add_0_r. unfold u32. symmetry. now apply Z.mod_small.
      * rewrite Hseq.
        replace (Z.pred (Z.of_nat (S (length rest))))
          with (Z.of_nat (length rest)) by lia.
        rewrite <- (fmap_add_seqZ 1 0).
        change (Z.add 1 <$> ?l) with (map (Z.add 1) l).
        rewrite map_map. apply map_ext. intros k. unfold u32.
        rewrite Z.add_mod_idemp_l by discriminate. f_equal. lia.
    + f_equal. exact Hdelta.
    + constructor; [|exact Hvalid].
      unfold Trng.valid_packet, is_u64, is_u32. cbn.
      repeat split; try (apply Z.mod_pos_bound; reflexivity); lia.
  - now apply IH.
  - destruct (negb (errno =? Trng.EINTR)); [|now apply IH].
    repeat split. constructor.
Qed.

(** The producer numbers its packets 0, 1, 2, ... (modulo 2^32), sends
    exactly one packet per line it prints, carrying the printed delta, and
    prints in broadcast mode exactly what it prints in local mode, where it
    sends nothing. *)
Theorem producer_packets (events : list wait_result) :
  let out := run_gpio_mode true events in
  map Trng.sequence (packets_sent out)
  = map u32 (seqZ 0 (Z.of_nat (length (packets_sent out))))
  /\ map (fun p => as_long (Trng.delta_ns p)) (packets_sent out) = stdout_lines out
  /\ length (packets_sent out) = length (stdout_lines out)
  /\ stdout_lines out = stdout_lines (run_gpio_mode false events)
  /\ packets_sent (run_gpio_mode false events) = [].
Proof.
  cbv zeta. unfold run_gpio_mode.
  destruct (gpio_loop_packets events (Timespec 0 0) 0 ltac:(lia))
    as (Hseq & Hdelta & _).
  split; [exact Hseq|]. split; [exact Hdelta|]. split; [|split].
  - rewrite <- Hdelta. now rewrite length_map.
  - apply gpio_loop_lines.
  - apply gpio_loop_local_sends_nothing.
Qed.

Lemma gpio_loop_consistent (events : list wait_result) : forall last_time s,
  Forall (fun ev => match ev with
                    | Edge ts => tv_sec ts <> 0
                    | _ => True
                    end) events ->
  tv_sec last_time <> 0 ->
  consistent_deltas (timestamp_ns last_time)
                    (packets_sent (gpio_loop true last_time s events)).
Proof.
  induction events as [|ev events IH]; intros last_time s Hall Hlast;
    [exact I|].
  apply Forall_cons in Hall as [Hev Hall].
  destruct ev as [ts| |errno]; cbn [gpio_loop].
  - destruct (Z.eqb_spec (tv_sec last_time) 0); [contradiction|]. cbn [negb].
    rewrite packets_sent_some.
    cbn [consistent_deltas Trng.delta_ns Trng.timestamp_ns]. split.
    + apply delta_ns_timestamps.
    + now apply IH.
  - now apply IH.
  - destruct (negb (errno =? Trng.EINTR)); [exact I|now apply IH].
Qed.

Lemma consistent_deltas_lookup prev (ps : list Trng.TRNGPacket) :
  consistent_deltas prev ps ->
  forall (i : nat) p q, ps !! i = Some p -> ps !! S i = Some q ->
    Trng.delta_ns q = u64 (Trng.timestamp_ns q - Trng.timestamp_ns p).
Proof.
  revert prev. induction ps as [|x ps IH]; intros prev Hc i p q Hp Hq;
    [discriminate|].
  destruct Hc as [_ Hc]. destruct i as [|i].
  - destruct ps as [|y ps]; [discriminate|].
    cbn in Hp, Hq. injection Hp as <-. injection Hq as <-. apply Hc.
  - apply (IH _ Hc i); assumption.
Qed.

(** When no edge event carries [tv_sec == 0], the packets of a broadcast
    run are consistent: the delta of every packet after the first is the
    64-bit difference between its timestamp and the timestamp of the packet
    sent before it. *)
Theorem producer_deltas_consistent (events : list wait_result)
    (Hsec : Forall (fun ev => match ev with
                               | Edge ts => tv_sec ts <> 0
                               | _ => True
                               end) events) :
  forall (i : nat) p q,
    packets_sent (run_gpio_mode true events) !! i = Some p ->
    packets_sent (run_gpio_mode true events) !! S i = Some q ->
    Trng.delta_ns q = u64 (Trng.timestamp_ns q - Trng.timestamp_ns p).
Proof.
  unfold run_gpio_mode.
  assert (Hgen : forall evs s,
            Forall (fun ev => match ev with
                              | Edge ts => tv_sec ts <> 0
                              | _ => True
                              end) evs ->
            exists prev,
              consistent_deltas prev
                (packets_sent (gpio_loop true (Timespec 0 0) s evs))).
  { induction evs as [|ev evs IH]; intros s Hall; [exists 0; exact I|].
    apply Forall_cons in Hall as [Hev Hall].
    destruct ev as [ts| |errno]; cbn [gpio_loop tv_sec Z.eqb negb].
    - exists (timestamp_ns ts). now apply gpio_loop_consistent.
    - now apply IH.
    - destruct (negb (errno =? Trng.EINTR)); [exists 0; exact I|now apply IH]. }
  destruct (Hgen events 0 Hsec) as [prev Hc].
  exact (consistent_deltas_lookup prev _ Hc).
Qed.

Lemma producer_deltas_consistent_witness :
  Forall (fun ev => match ev with
                    | Edge ts => tv_sec ts <> 0
                    | _ => True
                    end)
         [Edge (Timespec 5 999999999); WaitTimeout; Edge (Timespec 6 1);
          Edge (Timespec 6 500)]
  /\ forall (i : nat) p q,
       packets_sent (run_gpio_mode true
         [Edge (Timespec 5 999999999); WaitTimeout; Edge (Timespec 6 1);
          Edge (Timespec 6 500)]) !! i = Some p ->
       packets_sent (run_gpio_mode true
         [Edge (Timespec 5 999999999); WaitTimeout; Edge (Timespec 6 1);
          Edge (Timespec 6 500)]) !! S i = Some q ->
       Trng.delta_ns q = u64 (Trng.timestamp_ns q - Trng.timestamp_ns p).
Proof.
  assert (Hsec :
    Forall (fun ev => match ev with
                      | Edge ts => tv_sec ts <> 0
                      | _ => True
                      end)
           [Edge (Timespec 5 999999999); WaitTimeout; Edge (Timespec 6 1);
            Edge (Timespec 6 500)])
    by (repeat constructor; discriminate).
  exact (conj Hsec (producer_deltas_consistent _ Hsec)).
Defined.

Lemma datagram_of_image abi junk p :
  Trng.abi_ok abi ->
  datagram_of abi junk p = wire_encode p ++ tail_padding abi junk.
Proof.
  intros Hok. unfold datagram_of.
  now rewrite send_packet_datagram by assumption.
Qed.

Lemma receive_datagram_of abi_s abi_r junk mem p :
  Trng.abi_ok abi_s -> Trng.abi_ok abi_r ->
  Trng.sizeof_TRNGPacket abi_r = Trng.sizeof_TRNGPacket abi_s ->
  Trng.valid_packet p ->
  Trng.receive_iteration abi_r mem
    (Trng.RecvDatagram (datagram_of abi_s junk p))
  = Trng.Accepted p.
Proof.
  intros Hs Hr Hsize Hp. rewrite datagram_of_image by assumption.
  pose proof (length_net_packet abi_s junk p Hs) as Hlen.
  rewrite net_packet_image in Hlen by assumption.
  rewrite receive_full by (rewrite Hlen; symmetry; exact Hsize). f_equal.
  rewrite <- app_assoc, decode_image by assumption.
  now apply valid_packet_wrap.
Qed.

Lemma receive_all abi_s abi_r (junk : Trng.TRNGPacket -> nat -> byte) mem
    (ps : list Trng.TRNGPacket) :
  Trng.abi_ok abi_s -> Trng.abi_ok abi_r ->
  Trng.sizeof_TRNGPacket abi_r = Trng.sizeof_TRNGPacket abi_s ->
  Forall Trng.valid_packet ps ->
  Trng.run_receive_mode abi_r mem
    (map (fun p => Trng.RecvDatagram (datagram_of abi_s (junk p) p)) ps)
  = map (fun p => as_long (Trng.delta_ns p)) ps.
Proof.
  intros Hs Hr Hsize Hall.
  induction Hall as [|p ps Hp _ IH]; [reflexivity|].
  cbn [map Trng.run_receive_mode].
  rewrite receive_datagram_of by assumption.
  now rewrite IH.
Qed.

(** End to end: when every datagram of a broadcast run arrives, in order,
    at a receiver whose TRNGPacket has the same size, the receiver prints
    exactly the lines the producer printed, whatever the byte orders of the
    two hosts and whatever the padding bytes carried. *)
Theorem consumer_prints_producer_lines (events : list wait_result)
    (abi_s abi_r : Trng.ABI) (junk : Trng.TRNGPacket -> nat -> byte)
    (mem : list byte)
    (Hs : Trng.abi_ok abi_s) (Hr : Trng.abi_ok abi_r)
    (Hsize : Trng.sizeof_TRNGPacket abi_r = Trng.sizeof_TRNGPacket abi_s) :
  Trng.run_receive_mode abi_r mem
    (map (fun p => Trng.RecvDatagram (datagram_of abi_s (junk p) p))
         (packets_sent (run_gpio_mode true events)))
  = stdout_lines (run_gpio_mode true events).
Proof.
  unfold run_gpio_mode.
  destruct (gpio_loop_packets events (Timespec 0 0) 0 ltac:(lia))
    as (_ & Hdelta & Hvalid).
  rewrite <- Hdelta. now apply receive_all.
Qed.

Lemma consumer_prints_producer_lines_witness :
  Trng.abi_ok Trng.aarch64 /\ Trng.abi_ok Trng.x86_64
  /\ Trng.sizeof_TRNGPacket Trng.x86_64 = Trng.sizeof_TRNGPacket Trng.aarch64
  /\ Trng.run_receive_mode Trng.x86_64 []
       (map (fun p => Trng.RecvDatagram
                        (datagram_of Trng.aarch64 (fun _ => Byte.x5a) p))
            (packets_sent (run_gpio_mode true
               [Edge (Timespec 5 999999999); Edge (Timespec 6 1)])))
     = [2].
Proof.
  assert (Hs : Trng.abi_ok Trng.aarch64) by (right; reflexivity).
  assert (Hr : Trng.abi_ok Trng.x86_64) by (right; reflexivity).
  assert (Hsize : Trng.sizeof_TRNGPacket Trng.x86_64
                  = Trng.sizeof_TRNGPacket Trng.aarch64) by reflexivity.
  exact (conj Hs (conj Hr (conj Hsize
           (consumer_prints_producer_lines
              [Edge (Timespec 5 999999999); Edge (Timespec 6 1)]
              Trng.aarch64 Trng.x86_64 (fun _ _ => Byte.x5a) [] Hs Hr Hsize)))).
Defined.

(** Interrupted calls and datagrams shorter than a TRNGPacket leave no
    trace: removing them from what recvfrom delivers does not change what
    the receive loop prints. *)
Theorem receive_ignores_noise (abi : Trng.ABI) (mem : list byte)
    (events : list Trng.recv_event) :
  Trng.run_receive_mode abi mem
    (List.filter (fun ev => negb (is_noise abi ev)) events)
  = Trng.run_receive_mode abi mem events.
Proof.
  induction events as [|ev events IH]; [reflexivity|].
  cbn [List.filter Trng.run_receive_mode].
  destruct ev as [errno|d]; cbn [is_noise Trng.receive_iteration].
  - destruct (errno =? Trng.EINTR) eqn:E; cbn [negb]; [exact IH|].
    cbn [Trng.run_receive_mode Trng.receive_iteration]. now rewrite E.
  - unfold Trng.recvfrom_count.
    destruct (Z.ltb_spec (Z.of_nat (length d)) (Trng.sizeof_TRNGPacket abi))
      as [Hlt|Hge]; cbn [negb].
    + rewrite Z.min_l by lia.
      destruct (Z.eqb_spec (Z.of_nat (length d)) (Trng.sizeof_TRNGPacket abi));
        [lia|]. cbn [negb]. exact IH.
    + cbn [Trng.run_receive_mode Trng.receive_iteration].
      unfold Trng.recvfrom_count. rewrite Z.min_r by lia.
      rewrite Z.eqb_refl. cbn [negb]. now rewrite IH.
Qed.

(** A failure of recvfrom other than EINTR ends the receive loop: nothing
    that arrives afterwards is printed. *)
Theorem receive_stops_at_failure (abi : Trng.ABI) (mem : list byte)
    (before after : list Trng.recv_event) (errno : Z)
    (Herr : errno <> Trng.EINTR) :
  Trng.run_receive_mode abi mem (before ++ Trng.RecvError errno :: after)
  = Trng.run_receive_mode abi mem before.
Proof.
  induction before as [|ev before IH].
  - cbn [app Trng.run_receive_mode Trng.receive_iteration].
    destruct (Z.eqb_spec errno Trng.EINTR); [contradiction|reflexivity].
  - cbn [app Trng.run_receive_mode].
    destruct (Trng.receive_iteration abi mem ev);
      try reflexivity; now rewrite IH.
Qed.

Lemma receive_stops_at_failure_witness :
  111 <> Trng.EINTR
  /\ Trng.run_receive_mode Trng.aarch64 []
       ([Trng.RecvError 4] ++ Trng.RecvError 111
        :: [Trng.RecvDatagram (datagram_of Trng.aarch64 (fun _ => Byte.x00)
                                           (Trng.Packet 1 2 3))])
     = Trng.run_receive_mode Trng.aarch64 [] [Trng.RecvError 4].
Proof.
  assert (Herr : 111 <> Trng.EINTR) by discriminate.
  exact (conj Herr (receive_stops_at_failure Trng.aarch64 [] _ _ 111 Herr)).
Defined.

(** recvfrom cuts a datagram to the size of the object: a datagram that
    starts with the image of a packet is accepted as that packet, whatever
    bytes follow the image. *)
Theorem receive_accepts_longer_datagrams (abi : Trng.ABI) (mem : list byte)
    (junk : nat -> byte) (p : Trng.TRNGPacket) (extra : list byte)
    (Hok : Trng.abi_ok abi) (Hp : Trng.valid_packet p) :
  Trng.receive_iteration abi mem
    (Trng.RecvDatagram (datagram_of abi junk p ++ extra))
  = Trng.Accepted p.
Proof.
  rewrite datagram_of_image by assumption.
  pose proof (length_net_packet abi junk p Hok) as Hlen.
  rewrite net_packet_image in Hlen by assumption.
  set (image := wire_encode p ++ tail_padding abi junk) in *.
  unfold Trng.receive_iteration, Trng.recvfrom_count, Trng.recvfrom_copy.
  cbv zeta. rewrite length_app, Nat2Z.inj_add, Hlen.
  rewrite Z.min_r by lia. rewrite Z.eqb_refl. cbn [negb]. f_equal.
  rewrite <- Hlen, Nat2Z.id, take_app_length.
  unfold Trng.write_at. change (Z.to_nat 0) with 0%nat.
  rewrite take_0. cbn [app]. unfold image.
  rewrite <- app_assoc, decode_image by assumption.
  now apply valid_packet_wrap.
Qed.

Lemma receive_accepts_longer_datagrams_witness :
  Trng.abi_ok Trng.aarch64 /\ Trng.valid_packet (Trng.Packet 1 2 3)
  /\ Trng.receive_iteration Trng.aarch64 []
       (Trng.RecvDatagram
          (datagram_of Trng.aarch64 (fun _ => Byte.x00) (Trng.Packet 1 2 3)
           ++ [Byte.xff; Byte.xff; Byte.xff]))
     = Trng.Accepted (Trng.Packet 1 2 3).
Proof.
  assert (Hok : Trng.abi_ok Trng.aarch64) by (right; reflexivity).
  assert (Hp : Trng.valid_packet (Trng.Packet 1 2 3))
    by (unfold Trng.valid_packet, is_u64, is_u32; cbn; lia).
  exact (conj Hok (conj Hp
           (receive_accepts_longer_datagrams Trng.aarch64 []
              (fun _ => Byte.x00) (Trng.Packet 1 2 3)
              [Byte.xff; Byte.xff; Byte.xff] Hok Hp))).
Defined.

Lemma test_loop_prefix (events : list wait_result) : forall st s,
  exists more,
    TestTrng.printed (fold_left TestTrng.step events st)
    = TestTrng.printed st
      ++ stdout_lines (gpio_loop false (TestTrng.last_time st) s events)
      ++ more
    /\ (Forall not_fatal events -> more = []).
Proof.
  induction events as [|ev events IH]; intros st s.
  - exists []. cbn. now rewrite app_nil_r.
  - cbn [fold_left]. destruct ev as [ts| |errno]; cbn [TestTrng.step gpio_loop].
    + destruct (negb (tv_sec (TestTrng.last_time st) =? 0)).
      * destruct (IH (TestTrng.State ts
                        (if delta_ns (TestTrng.last_time st) ts
                            <? TestTrng.min_delta st
                         then delta_ns (TestTrng.last_time st) ts
                         else TestTrng.min_delta st)
                        (if delta_ns (TestTrng.last_time st) ts
                            >? TestTrng.max_delta st
                         then delta_ns (TestTrng.last_time st) ts
                         else TestTrng.max_delta st)
                        (TestTrng.printed st
                         ++ [as_long (delta_ns (TestTrng.last_time st) ts)]))
                    s) as (more & E & Hmore).
        exists more. cbn [TestTrng.printed TestTrng.last_time] in E.
        rewrite E, stdout_lines_cons, <- app_assoc. split; [reflexivity|].
        intros Hall. apply Hmore. now apply Forall_cons in Hall as [_ Hall].
      * destruct (IH (TestTrng.State ts (TestTrng.min_delta st)
                        (TestTrng.max_delta st) (TestTrng.printed st)) s)
          as (more & E & Hmore).
        exists more. cbn [TestTrng.printed TestTrng.last_time] in E.
        split; [exact E|].
        intros Hall. apply Hmore. now apply Forall_cons in Hall as [_ Hall].
    + destruct (IH st s) as (more & E & Hmore). exists more.
      split; [exact E|].
      intros Hall. apply Hmore. now apply Forall_cons in Hall as [_ Hall].
    + destruct (Z.eqb_spec errno Trng.EINTR) as [Heq|Hne]; cbn [negb].
      * destruct (IH st s) as (more & E & Hmore). exists more.
        split; [exact E|].
        intros Hall. apply Hmore. now apply Forall_cons in Hall as [_ Hall].
      * destruct (IH st s) as (more & E & _).
        eexists. split.
        -- rewrite E. cbn [stdout_lines map app]. reflexivity.
        -- intros Hall. apply Forall_cons in Hall as [Hev _].
           cbn [not_fatal] in Hev. contradiction.
Qed.

(** The stand-alone sampler testing/trng.c and the local mode of
    trng/trng.c print the same deltas for the same edge events, as long as
    no wait fails with an error other than EINTR; after such an error the
    local mode stops while the sampler goes on, so the local mode's output
    is always a prefix of the sampler's. *)
Theorem sampler_agrees_with_local_mode (events : list wait_result) :
  (exists more,
     TestTrng.printed (TestTrng.main events)
     = stdout_lines (run_gpio_mode false events) ++ more)
  /\ (Forall not_fatal events ->
      TestTrng.printed (TestTrng.main events)
      = stdout_lines (run_gpio_mode false events)).
Proof.
  unfold TestTrng.main, run_gpio_mode.
  destruct (test_loop_prefix events
              (TestTrng.State (Timespec 0 0) (2 ^ 64 - 1) 0 []) 0)
    as (more & E & Hmore).
  cbn [TestTrng.printed TestTrng.last_time app] in E.
  split.
  - exists more. exact E.
  - intros Hall. rewrite E, (Hmore Hall). now rewrite app_nil_r.
Qed.

Lemma sampler_agrees_with_local_mode_witness :
  Forall not_fatal [Edge (Timespec 5 0); WaitError 4; Edge (Timespec 5 7)]
  /\ TestTrng.printed
       (TestTrng.main [Edge (Timespec 5 0); WaitError 4; Edge (Timespec 5 7)])
     = stdout_lines
         (run_gpio_mode false
            [Edge (Timespec 5 0); WaitError 4; Edge (Timespec 5 7)]).
Proof.
  assert (Hall : Forall not_fatal
                   [Edge (Timespec 5 0); WaitError 4; Edge (Timespec 5 7)])
    by (repeat constructor).
  exact (conj Hall
           (proj2 (sampler_agrees_with_local_mode _) Hall)).
Defined.

Section Arguments.

Import String.StringSyntax.
Local Open Scope string_scope.

Lemma parse_arguments_invariant (opts : list getopt_result) :
  forall c0 config,
    1 <= port c0 <= 65535 ->
    parse_arguments c0 opts = Returned 0 config ->
    1 <= port config <= 65535
    /\ (mode config = MODE_BROADCAST -> host config <> None)
    /\ (mode config = MODE_RECEIVE -> host config <> None)
    /\ (host c0 = None ->
        Forall (fun o => forall s, o <> Opt_h s) opts ->
        mode config = MODE_RECEIVE ->
        host config = Some (if use_ipv6 config then "::" else "0.0.0.0")).
Proof.
  induction opts as [|opt opts IH]; intros c0 config Hport Hret.
  - cbn [parse_arguments] in Hret.
    destruct c0 as [m h p v6 gl gc vb]. cbn in Hret, Hport.
    destruct m, h; cbn in Hret; try discriminate;
      injection Hret as <-; cbn; repeat split; try congruence; try lia.
  - destruct c0 as [m h p v6 gl gc vb]. cbn [port host] in *.
    cbn [parse_arguments] in Hret.
    (* the options that keep the port and the host *)
    assert (Hkeep : forall c1,
              parse_arguments c1 opts = Returned 0 config ->
              port c1 = p -> host c1 = h ->
              1 <= port config <= 65535
              /\ (mode config = MODE_BROADCAST -> host config <> None)
              /\ (mode config = MODE_RECEIVE -> host config <> None)
              /\ (h = None ->
                  Forall (fun o => forall s, o <> Opt_h s) (opt :: opts) ->
                  mode config = MODE_RECEIVE ->
                  host config
                  = Some (if use_ipv6 config then "::" else "0.0.0.0"))).
    { intros c1 Hc1 Hp Hh.
      destruct (IH c1 config ltac:(rewrite Hp; exact Hport) Hc1)
        as (H1 & H2 & H3 & H4).
      split; [exact H1|]. split; [exact H2|]. split; [exact H3|].
      intros Hnone Hall. apply Forall_cons in Hall as [_ Hall].
      apply H4; [now rewrite Hh|exact Hall]. }
    destruct opt as [optarg|optarg|n| |n|optarg| | |].
    + destruct (String.eqb optarg "local");
        [|destruct (String.eqb optarg "broadcast");
          [|destruct (String.eqb optarg "receive"); [|discriminate]]];
        exact (Hkeep _ Hret eq_refl eq_refl).
    + destruct (IH (MkConfig m (Some optarg) p v6 gl gc vb) config Hport Hret)
        as (H1 & H2 & H3 & _).
      split; [exact H1|]. split; [exact H2|]. split; [exact H3|].
      intros _ Hall. apply Forall_cons in Hall as [Hopt _].
      now contradiction (Hopt optarg).
    + destruct (Z.leb_spec n 0); [discriminate|].
      destruct (Z.gtb_spec n 65535); [discriminate|]. cbn [orb] in Hret.
      assert (Hn : 1 <= port (MkConfig m h n v6 gl gc vb) <= 65535)
        by (cbn; lia).
      destruct (IH (MkConfig m h n v6 gl gc vb) config Hn Hret)
        as (H1 & H2 & H3 & H4).
      split; [exact H1|]. split; [exact H2|]. split; [exact H3|].
      intros Hh Hall. apply Forall_cons in Hall as [_ Hall]. now apply H4.
    + exact (Hkeep _ Hret eq_refl eq_refl).
    + exact (Hkeep _ Hret eq_refl eq_refl).
    + exact (Hkeep _ Hret eq_refl eq_refl).
    + exact (Hkeep _ Hret eq_refl eq_refl).
    + discriminate.
    + discriminate.
Qed.

(** Whenever parse_arguments returns 0, the configuration it leaves can be
    used: the port is in 1..65535, broadcast and receive modes have a host,
    and a receive mode given no -h listens on "::" with -6 and on "0.0.0.0"
    without, wherever -6 stood among the options. *)
Theorem parse_arguments_ok (opts : list getopt_result) (config : Config)
    (Hret : parse_arguments default_config opts = Returned 0 config) :
  1 <= port config <= 65535
  /\ (mode config = MODE_BROADCAST -> host config <> None)
  /\ (mode config = MODE_RECEIVE -> host config <> None)
  /\ (Forall (fun o => forall s, o <> Opt_h s) opts ->
      mode config = MODE_RECEIVE ->
      host config = Some (if use_ipv6 config then "::" else "0.0.0.0")).
Proof.
  destruct (parse_arguments_invariant opts default_config config
              ltac:(cbn; lia) Hret) as (H1 & H2 & H3 & H4).
  split; [exact H1|]. split; [exact H2|]. split; [exact H3|].
  now apply H4.
Qed.

Lemma parse_arguments_ok_witness :
  parse_arguments default_config [Opt_m "receive"; Opt_p 9000; Opt_6]
  = Returned 0 (MkConfig MODE_RECEIVE (Some "::") 9000 true 5 "gpiochip0" false)
  /\ 1 <= 9000 <= 65535.
Proof.
  assert (Hret :
    parse_arguments default_config [Opt_m "receive"; Opt_p 9000; Opt_6]
    = Returned 0
        (MkConfig MODE_RECEIVE (Some "::") 9000 true 5 "gpiochip0" false))
    by reflexivity.
  exact (conj Hret (proj1 (parse_arguments_ok _ _ Hret))).
Defined.

End Arguments.

End ProducerProperties.

(** ** filter.c: the shape of the window reduction's output *)

Section WindowStructure.

Import Filter WindowSpec.

Lemma StronglySorted_app_inv (R : Z -> Z -> Prop) (l1 l2 : list Z) :
  StronglySorted R (l1 ++ l2) ->
  StronglySorted R l1 /\ StronglySorted R l2
  /\ (forall x y, x ∈ l1 -> y ∈ l2 -> R x y).
Proof.
  induction l1 as [|a l1 IH]; cbn [app]; intros Hs.
  - split; [constructor|]. split; [assumption|].
    intros x y Hx. inversion Hx.
  - apply StronglySorted_inv in Hs as [Hs Hall].
    destruct (IH Hs) as (H1 & H2 & H3).
    rewrite Forall_forall in Hall.
    split; [|split; [assumption|]].
    + constructor; [assumption|]. rewrite Forall_forall.
      intros y Hy. apply Hall. apply elem_of_app. now left.
    + intros x y Hx Hy. apply elem_of_cons in Hx as [->|Hx].
      * apply Hall. apply elem_of_app. now right.
      * now apply H3.
Qed.

Lemma StronglySorted_snoc (l : list Z) t :
  StronglySorted Z.le (l ++ [t]) ->
  forall x, x ∈ l -> x <= t.
Proof.
  intros Hs x Hx. apply StronglySorted_app_inv in Hs as (_ & _ & H).
  apply H; [assumption|constructor].
Qed.

Lemma hd_elem_of (w : list Z) : w <> [] -> hd 0 w ∈ w.
Proof. destruct w; [congruence|]. intros _. constructor. Qed.

Lemma last_elem_of (w : list Z) : w <> [] -> List.last w 0 ∈ w.
Proof.
  induction w as [|a [|b w] IH]; intros Hne; [congruence|constructor|].
  change (List.last (a :: b :: w) 0) with (List.last (b :: w) 0).
  apply elem_of_cons. right. apply IH. discriminate.
Qed.

Lemma sorted_between (w : list Z) :
  StronglySorted Z.le w ->
  Forall (fun t => hd 0 w <= t <= List.last w 0) w.
Proof.
  induction 1 as [|a w Hs IH Hall]; [constructor|].
  destruct w as [|b w].
  - constructor; [cbn; lia|constructor].
  - change (List.last (a :: b :: w) 0) with (List.last (b :: w) 0).
    cbn [hd] in *.
    assert (Hlast : a <= List.last (b :: w) 0).
    { rewrite Forall_forall in Hall. apply Hall, last_elem_of. discriminate. }
    constructor; [lia|].
    rewrite Forall_forall in IH, Hall |- *. intros t Ht.
    specialize (IH t Ht). specialize (Hall t Ht). lia.
Qed.

Lemma sum_between (w : list Z) lo hi :
  Forall (fun t => lo <= t <= hi) w ->
  Z.of_nat (length w) * lo <= fold_right Z.add 0 w <= Z.of_nat (length w) * hi.
Proof.
  induction 1 as [|t w Ht _ IH]; cbn [fold_right length]; lia.
Qed.

(** The windows of a sorted input: each is one window, and their floors
    increase strictly, starting from the floor of the window being filled. *)
Lemma windows_from_structure ws : 0 < ws -> forall rest cur cf,
  cur <> [] ->
  Forall (fun t => floor_of ws t = cf) cur ->
  StronglySorted Z.le (cur ++ rest) ->
  Forall (one_window ws) (windows_from ws cur cf rest)
  /\ Sorted Z.lt (map (window_key ws) (windows_from ws cur cf rest))
  /\ exists w0 more,
       windows_from ws cur cf rest = w0 :: more /\ window_key ws w0 = cf.
Proof.
  intros Hws.
  assert (Hkey : forall cur cf, cur <> [] ->
            Forall (fun t => floor_of ws t = cf) cur -> window_key ws cur = cf).
  { intros cur cf Hne Hall. rewrite Forall_forall in Hall.
    apply Hall, hd_elem_of, Hne. }
  assert (Hone : forall cur cf, cur <> [] ->
            Forall (fun t => floor_of ws t = cf) cur ->
            StronglySorted Z.le cur -> one_window ws cur).
  { intros cur cf Hne Hall Hs. split; [assumption|]. split; [assumption|].
    rewrite (Hkey cur cf Hne Hall). exact Hall. }
  induction rest as [|t rest IH]; intros cur cf Hne Hall Hs;
    cbn [windows_from].
  - rewrite app_nil_r in Hs. split; [|split].
    + constructor; [now apply (Hone cur cf)|constructor].
    + cbn. repeat constructor.
    + exists cur, []. split; [reflexivity|now apply Hkey].
  - destruct (Z.eqb_spec (floor_of ws t) cf) as [E|E].
    + apply IH.
      * destruct cur; discriminate.
      * apply Forall_app. split; [assumption|]. now constructor.
      * now rewrite <- app_assoc.
    + destruct (StronglySorted_app_inv _ _ _ Hs) as (Hcur & Hrest & Hle).
      destruct (IH [t] (floor_of ws t) ltac:(discriminate)
                  ltac:(now constructor) Hrest)
        as (Hwf & Hsorted & w0 & more & Ew & Ek).
      split; [|split].
      * constructor; [now apply (Hone cur cf)|exact Hwf].
      * cbn [map]. constructor; [exact Hsorted|].
        rewrite Ew. cbn [map]. constructor. rewrite Ek.
        rewrite (Hkey cur cf Hne Hall).
        assert (cf <= floor_of ws t); [|lia].
        rewrite Forall_forall in Hall.
        rewrite <- (Hall (hd 0 cur) (hd_elem_of cur Hne)).
        apply floor_of_mono; [assumption|].
        apply Hle; [now apply hd_elem_of|constructor].
      * exists cur, (windows_from ws [t] (floor_of ws t) rest).
        split; [reflexivity|now apply Hkey].
Qed.

Lemma windows_structure ws (ts : list Z) :
  0 < ws -> Sorted Z.le ts ->
  Forall (one_window ws) (windows ws ts)
  /\ Sorted Z.lt (map (window_key ws) (windows ws ts)).
Proof.
  intros Hws Hsorted.
  destruct ts as [|t rest]; [split; constructor|].
  apply Sorted_StronglySorted in Hsorted; [|intros x y z; apply Z.le_trans].
  destruct (windows_from_structure ws Hws rest [t] (floor_of ws t)
              ltac:(discriminate) ltac:(now constructor) Hsorted)
    as (H1 & H2 & _).
  split; assumption.
Qed.

(** The value stored for a window lies between its first and last sample,
    hence inside the window. *)
Lemma emitted_in_window ws mode (w : list Z) :
  0 < ws -> one_window ws w -> Forall is_u64 w ->
  mode = 0 \/ mode = 1 \/ mode = 2 ->
  (mode = 2 -> fold_right Z.add 0 w < 2 ^ 64) ->
  hd 0 w <= emitted mode w <= List.last w 0
  /\ floor_of ws (emitted mode w) = window_key ws w
  /\ is_u64 (emitted mode w).
Proof.
  intros Hws (Hne & Hs & Hfloor) Hu64 Hmode Hsum.
  pose proof (sorted_between w Hs) as Hbetween.
  pose proof (hd_elem_of w Hne) as Hhd.
  pose proof (last_elem_of w Hne) as Hlast.
  assert (Hbounds : hd 0 w <= emitted mode w <= List.last w 0).
  { rewrite Forall_forall in Hbetween.
    destruct Hmode as [->|[->| ->]].
    - unfold emitted. cbn [Z.eqb]. apply (Hbetween _ Hhd).
    - unfold emitted. cbn [Z.eqb Pos.eqb]. apply (Hbetween _ Hlast).
    - rewrite emitted_mean by auto. unfold mean.
      rewrite <- Forall_forall in Hbetween.
      pose proof (sum_between w _ _ Hbetween) as Hsb.
      assert (0 < Z.of_nat (length w))
        by (destruct w; [congruence|cbn [length]; lia]).
      split.
      + apply Z.div_le_lower_bound; lia.
      + apply Z.div_le_upper_bound; lia. }
  split; [exact Hbounds|]. split.
  - rewrite Forall_forall in Hfloor.
    pose proof (floor_of_mono ws _ _ Hws (proj1 Hbounds)) as H1.
    pose proof (floor_of_mono ws _ _ Hws (proj2 Hbounds)) as H2.
    rewrite (Hfloor _ Hlast) in H2. unfold window_key in *. lia.
  - rewrite Forall_forall in Hu64.
    pose proof (Hu64 _ Hhd) as Ha. pose proof (Hu64 _ Hlast) as Hb.
    unfold is_u64 in *. lia.
Qed.

Lemma Sorted_lt_floors ws (l : list Z) :
  0 < ws -> Sorted Z.lt (map (floor_of ws) l) -> Sorted Z.lt l.
Proof.
  intros Hws. induction l as [|a l IH]; intros Hs; [constructor|].
  cbn [map] in Hs. apply Sorted_inv in Hs as [Hs Hhd].
  constructor; [now apply IH|].
  destruct l as [|b l]; [constructor|]. constructor.
  cbn [map] in Hhd. apply HdRel_inv in Hhd.
  destruct (Z.lt_ge_cases a b) as [|Hge]; [assumption|].
  pose proof (floor_of_mono ws b a Hws ltac:(lia)). lia.
Qed.

Lemma windows_from_singletons ws (l : list Z) : forall cur cf,
  Sorted Z.lt (cf :: map (floor_of ws) l) ->
  windows_from ws cur cf l = cur :: map (fun x => [x]) l.
Proof.
  induction l as [|t l IH]; intros cur cf Hs; [reflexivity|].
  cbn [windows_from map] in *.
  apply Sorted_inv in Hs as [Hs Hhd]. apply HdRel_inv in Hhd.
  destruct (Z.eqb_spec (floor_of ws t) cf) as [E|_]; [lia|].
  f_equal. now apply IH.
Qed.

Lemma windows_singletons ws (l : list Z) :
  Sorted Z.lt (map (floor_of ws) l) ->
  windows ws l = map (fun x => [x]) l.
Proof.
  destruct l as [|t l]; [reflexivity|]. intros Hs.
  unfold windows. cbn [map]. now apply windows_from_singletons.
Qed.

Section Output.

Variables (ts : list Z) (ws mode : Z).
Hypothesis Hu64 : Forall is_u64 ts.
Hypothesis Hsorted : Sorted Z.le ts.
Hypothesis Hws : 0 < ws.
Hypothesis Hmax : Z.of_nat (length ts) <= MAX_BUFFER.
Hypothesis Hmode : mode = 0 \/ mode = 1 \/ mode = 2.
Hypothesis Hfinal : Forall (fun t => floor_of ws t + ws < 2 ^ 64) ts.
Hypothesis Hsum :
  mode = 2 -> Forall (fun w => fold_right Z.add 0 w < 2 ^ 64) (windows ws ts).

Lemma window_members (w : list Z) t : w ∈ windows ws ts -> t ∈ w -> t ∈ ts.
Proof.
  intros Hw Ht. rewrite <- (windows_concat ws ts).
  apply list_elem_of_In, in_concat. exists w.
  split; now apply list_elem_of_In.
Qed.

Lemma output_values :
  Forall (fun w =>
            floor_of ws (emitted mode w) = window_key ws w
            /\ is_u64 (emitted mode w)
            /\ exists t, t ∈ ts /\ floor_of ws (emitted mode w) = floor_of ws t)
         (windows ws ts).
Proof.
  destruct (windows_structure ws ts Hws Hsorted) as [Hone _].
  rewrite Forall_forall in Hone |- *. intros w Hw.
  pose proof (Hone w Hw) as Hw1.
  assert (Hwu : Forall is_u64 w).
  { pose proof Hu64 as Hall. rewrite Forall_forall in Hall |- *.
    intros t Ht. apply Hall. now apply (window_members w). }
  assert (Hwsum : mode = 2 -> fold_right Z.add 0 w < 2 ^ 64).
  { intros Hm. pose proof (Hsum Hm) as Hall.
    rewrite Forall_forall in Hall. now apply Hall. }
  destruct (emitted_in_window ws mode w Hws Hw1 Hwu Hmode Hwsum)
    as (_ & Hfl & Hu).
  split; [exact Hfl|]. split; [exact Hu|].
  exists (hd 0 w). split; [|exact Hfl].
  apply (window_members w); [assumption|].
  apply hd_elem_of. apply Hw1.
Qed.

Lemma output_floors :
  map (floor_of ws) (apply_window ts ws mode)
  = map (window_key ws) (windows ws ts).
Proof.
  rewrite (apply_window_windows ts ws mode) by assumption.
  rewrite map_map. pose proof output_values as Hall.
  revert Hall. generalize (windows ws ts). intros l Hall.
  induction Hall as [|w l (Hfl & _) _ IH]; [reflexivity|].
  cbn [map]. now rewrite Hfl, IH.
Qed.

Lemma output_sorted_floors :
  Sorted Z.lt (map (floor_of ws) (apply_window ts ws mode)).
Proof.
  rewrite output_floors. apply windows_structure; assumption.
Qed.

End Output.

(** On the inputs where no 64-bit operation wraps, the values apply_window
    stores increase strictly and lie in pairwise different windows, each in
    the window of some input sample. *)
Theorem window_output_increasing (ts : list Z) (ws mode : Z)
    (Hu64 : Forall is_u64 ts) (Hsorted : Sorted Z.le ts) (Hws : 0 < ws)
    (Hmax : Z.of_nat (length ts) <= MAX_BUFFER)
    (Hmode : mode = 0 \/ mode = 1 \/ mode = 2)
    (Hfinal : Forall (fun t => floor_of ws t + ws < 2 ^ 64) ts)
    (Hsum : mode = 2 ->
            Forall (fun w => fold_right Z.add 0 w < 2 ^ 64) (windows ws ts)) :
  Sorted Z.lt (apply_window ts ws mode)
  /\ Sorted Z.lt (map (floor_of ws) (apply_window ts ws mode))
  /\ Forall (fun x => exists t, t ∈ ts /\ floor_of ws x = floor_of ws t)
            (apply_window ts ws mode).
Proof.
  pose proof (output_sorted_floors ts ws mode Hu64 Hsorted Hws Hmax Hmode
                Hfinal Hsum) as Hfloors.
  split; [now apply (Sorted_lt_floors ws)|]. split; [exact Hfloors|].
  rewrite (apply_window_windows ts ws mode) by assumption.
  pose proof (output_values ts ws mode Hu64 Hsorted Hws Hmode Hsum) as Hall.
  revert Hall. generalize (windows ws ts). intros l Hall.
  induction Hall as [|w l (_ & _ & Ht) _ IH]; [constructor|].
  cbn [map]. constructor; assumption.
Qed.

(** On the same inputs the window reduction is idempotent: reducing its
    own output again, with the same window size and mode, changes
    nothing. *)
Theorem window_idempotent (ts : list Z) (ws mode : Z)
    (Hu64 : Forall is_u64 ts) (Hsorted : Sorted Z.le ts) (Hws : 0 < ws)
    (Hmax : Z.of_nat (length ts) <= MAX_BUFFER)
    (Hmode : mode = 0 \/ mode = 1 \/ mode = 2)
    (Hfinal : Forall (fun t => floor_of ws t + ws < 2 ^ 64) ts)
    (Hsum : mode = 2 ->
            Forall (fun w => fold_right Z.add 0 w < 2 ^ 64) (windows ws ts)) :
  apply_window (apply_window ts ws mode) ws mode = apply_window ts ws mode.
Proof.
  pose proof (output_sorted_floors ts ws mode Hu64 Hsorted Hws Hmax Hmode
                Hfinal Hsum) as Hfloors.
  pose proof (Sorted_lt_floors ws _ Hws Hfloors) as Hlt.
  assert (Hout : Forall (fun x => is_u64 x /\ floor_of ws x + ws < 2 ^ 64)
                        (apply_window ts ws mode)).
  { rewrite (apply_window_windows ts ws mode) by assumption.
    pose proof (output_values ts ws mode Hu64 Hsorted Hws Hmode Hsum) as Hall.
    revert Hall. generalize (windows ws ts). intros l Hall.
    induction Hall as [|w l (_ & Hu & t & Ht & Hfl) _ IH]; [constructor|].
    cbn [map]. constructor; [|exact IH]. split; [exact Hu|].
    rewrite Hfl. pose proof Hfinal as Hf. rewrite Forall_forall in Hf.
    now apply Hf. }
  rewrite (apply_window_windows (apply_window ts ws mode) ws mode).
  - rewrite windows_singletons by assumption. rewrite map_map.
    clear Hfloors Hlt. revert Hout. generalize (apply_window ts ws mode).
    intros l Hout.
    induction Hout as [|x l [Hx _] _ IH]; [reflexivity|].
    cbn [map]. f_equal; [|exact IH].
    unfold emitted, wrapped_sum. cbn [hd List.last fold_left length].
    unfold is_u64, u64 in *.
    destruct Hmode as [->|[->| ->]]; cbn [Z.eqb Pos.eqb]; try reflexivity.
    rewrite Z.mod_small by lia. now rewrite Z.div_1_r.
  - eapply Forall_impl; [exact Hout|]. now intros x [Hx _].
  - clear -Hlt. revert Hlt. generalize (apply_window ts ws mode).
    intros l Hlt. induction Hlt as [|a l Hs IH Hhd]; [constructor|].
    constructor; [exact IH|].
    destruct Hhd; constructor. lia.
  - assumption.
  - pose proof (apply_window_length_le ts ws mode). lia.
  - assumption.
  - eapply Forall_impl; [exact Hout|]. now intros x [_ Hx].
Qed.

Lemma window_samples_admissible :
  Forall is_u64 [100; 150; 1100; 1200; 2500]
  /\ Sorted Z.le [100; 150; 1100; 1200; 2500]
  /\ Z.of_nat (length [100; 150; 1100; 1200; 2500]) <= MAX_BUFFER
  /\ Forall (fun t => floor_of 1000 t + 1000 < 2 ^ 64)
            [100; 150; 1100; 1200; 2500]
  /\ Forall (fun w => fold_right Z.add 0 w < 2 ^ 64)
            (windows 1000 [100; 150; 1100; 1200; 2500]).
Proof.
  split; [repeat constructor; unfold is_u64; lia|].
  split; [repeat constructor; lia|].
  split; [vm_compute; discriminate|].
  split; repeat constructor.
Defined.

Lemma window_output_increasing_witness :
  Sorted Z.lt (apply_window [100; 150; 1100; 1200; 2500] 1000 2)
  /\ Sorted Z.lt (map (floor_of 1000)
                      (apply_window [100; 150; 1100; 1200; 2500] 1000 2))
  /\ Forall (fun x => exists t, t ∈ [100; 150; 1100; 1200; 2500]
                                /\ floor_of 1000 x = floor_of 1000 t)
            (apply_window [100; 150; 1100; 1200; 2500] 1000 2).
Proof.
  destruct window_samples_admissible as (Hu & Hs & Hm & Hf & Hsum).
  apply (window_output_increasing [100; 150; 1100; 1200; 2500] 1000 2
           Hu Hs ltac:(lia) Hm ltac:(auto) Hf (fun _ => Hsum)).
Defined.

Lemma window_idempotent_witness :
  apply_window (apply_window [100; 150; 1100; 1200; 2500] 1000 2) 1000 2
  = apply_window [100; 150; 1100; 1200; 2500] 1000 2.
Proof.
  destruct window_samples_admissible as (Hu & Hs & Hm & Hf & Hsum).
  apply (window_idempotent [100; 150; 1100; 1200; 2500] 1000 2
           Hu Hs ltac:(lia) Hm ltac:(auto) Hf (fun _ => Hsum)).
Defined.

End WindowStructure.
